(** * jobqueue: a LIFO job stack with bounded concurrency

    A shallow embedding of the Go package: the waiter stack of [stack.go],
    the control loop of the [Stack] type ([run], [With], [Wait], [Status],
    [Close], [CloseForced]) and the HTTP handler built on it.

    The control loop is the only goroutine that touches the stack and the
    counters; every other goroutine talks to it over channels.  One
    iteration of its [select] is modelled as a function of the state and of
    the communication that was selected, returning the new state and the
    values the iteration sent. *)

From Stdlib Require Import ZArith List Bool Lia Arith PeanoNat Sorted.
Import ListNotations.

Local Open Scope Z_scope.

(** ** Go's [int] *)

(** [int] is taken at 64 bits; [++] and [--] wrap around. *)
Definition min_int : Z := - 2 ^ 63.
Definition max_int : Z := 2 ^ 63 - 1.

Definition in_int (z : Z) : Prop := min_int <= z <= max_int.

Definition wrap (z : Z) : Z := (z + 2 ^ 63) mod 2 ^ 64 - 2 ^ 63.

Definition incr (z : Z) : Z := wrap (z + 1).
Definition decr (z : Z) : Z := wrap (z - 1).

(** ** Errors and jobs *)

Inductive error : Type :=
| ErrStackFull
| ErrTimeout
| ErrClosed.

(** A Go [error] value: [None] is [nil]. *)
Definition result : Type := option error.

Definition error_eqb (a b : error) : bool :=
  match a, b with
  | ErrStackFull, ErrStackFull | ErrTimeout, ErrTimeout | ErrClosed, ErrClosed => true
  | _, _ => false
  end.

(** A channel made by [make(chan error)] is known by the order of its
    creation. *)
Definition chan : Type := nat.

(** [type job struct { notify; timeout; entry }].  [timeout] is the channel
    of [time.After], [nil] when no timeout is configured: what matters to
    the loop is whether a timer is there.  [entry] is the job's element in
    the list, which here is its position. *)
Record job : Type := mkJob {
  notify : chan;
  timeout : bool
}.

(** ** The stack of waiting jobs ([stack.go]) *)

(** [container/list]: [Front] is the head of the list, [Back] its last
    element; an element handle is a position, [nil] is [None]. *)
Record stack : Type := mkStack {
  cap : Z;
  lst : list job
}.

Definition newStack (c : Z) : stack := {| cap := c; lst := [] |}.

Definition Len (s : stack) : Z := Z.of_nat (length (lst s)).

Definition Front (s : stack) : option nat :=
  match lst s with [] => None | _ :: _ => Some 0%nat end.

Definition Back (s : stack) : option nat :=
  match lst s with [] => None | _ :: _ => Some (length (lst s) - 1)%nat end.

Definition empty (s : stack) : bool := Len s =? 0.

Definition full (s : stack) : bool := (cap s >? 0) && (Len s =? cap s).

Definition bottom (s : stack) : option job :=
  if Len s =? 0 then None
  else match Back s with Some e => nth_error (lst s) e | None => None end.

Definition push (s : stack) (j : job) : stack :=
  {| cap := cap s; lst := j :: lst s |}.

Fixpoint remove_at (e : nat) (l : list job) : list job :=
  match l, e with
  | [], _ => []
  | _ :: t, O => t
  | x :: t, S e' => x :: remove_at e' t
  end.

(** [removeEntry] dereferences the element: on [nil] the program panics,
    which is [None]. *)
Definition removeEntry (s : stack) (e : option nat) : option (job * stack) :=
  match e with
  | None => None
  | Some i =>
      match nth_error (lst s) i with
      | None => None
      | Some j => Some (j, {| cap := cap s; lst := remove_at i (lst s) |})
      end
  end.

Definition pop (s : stack) : option (job * stack) := removeEntry s (Front s).

Definition shift (s : stack) : option (job * stack) := removeEntry s (Back s).


(** ** Options, status and the state of the control loop *)

(** [Timeout] and [CloseTimeout] are [time.Duration] values (nanoseconds). *)
Record Options : Type := mkOptions {
  MaxConcurrency : Z;
  MaxStackSize : Z;
  Timeout : Z;
  CloseTimeout : Z
}.

Record Status : Type := mkStatus {
  ActiveJobs : Z;
  QueuedJobs : Z;
  Closing : bool;
  Closed : bool
}.

(** [type Stack struct].  The channels [req], [done], [quit] and [status]
    carry the communications of [event] below.  [hasQuit] tells whether that
    channel has been closed, and [closeTimeout], a local variable of [run],
    whether it holds a timer. *)
Record Stack : Type := mkQueue {
  options : Options;
  stk : stack;
  closing : bool;
  busy : Z;
  hasQuit : bool;
  closeTimeout : bool
}.

Definition set_stk (s : Stack) (st : stack) : Stack :=
  {| options := options s; stk := st; closing := closing s; busy := busy s;
     hasQuit := hasQuit s; closeTimeout := closeTimeout s |}.

Definition set_busy (s : Stack) (b : Z) : Stack :=
  {| options := options s; stk := stk s; closing := closing s; busy := b;
     hasQuit := hasQuit s; closeTimeout := closeTimeout s |}.

Definition set_closing (s : Stack) (b : bool) : Stack :=
  {| options := options s; stk := stk s; closing := b; busy := busy s;
     hasQuit := hasQuit s; closeTimeout := closeTimeout s |}.

Definition set_closeTimeout (s : Stack) (b : bool) : Stack :=
  {| options := options s; stk := stk s; closing := closing s; busy := busy s;
     hasQuit := hasQuit s; closeTimeout := b |}.

(** [close(s.hasQuit)] *)
Definition close_hasQuit (s : Stack) : Stack :=
  {| options := options s; stk := stk s; closing := closing s; busy := busy s;
     hasQuit := true; closeTimeout := closeTimeout s |}.

(** What one iteration of the loop may send: a value on the [notify]
    channel of a job, or a status on the channel of a status request. *)
Inductive output : Type :=
| Notify (c : chan) (r : result)
| Reply (st : Status).

(** The same error sent to each job of a list, in the order of the list. *)
Definition notify_all (e : error) (l : list job) : list output :=
  map (fun j => Notify (notify j) (Some e)) l.

(** The communication chosen by the [select] of [run]. *)
Inductive event : Type :=
| EvReq (j : job)          (* j := <-s.req *)
| EvDone                   (* <-s.done *)
| EvTimeout                (* <-timeout *)
| EvStatus                 (* status := <-s.status *)
| EvQuit (forced : bool)   (* forced := <-s.quit *)
| EvCloseTimeout.          (* <-closeTimeout *)

(** A concurrency of zero or less stands for 1. *)
Definition normalize (o : Options) : Options :=
  if MaxConcurrency o <=? 0
  then mkOptions 1 (MaxStackSize o) (Timeout o) (CloseTimeout o)
  else o.

Definition With (o : Options) : Stack :=
  let o' := if MaxConcurrency o <=? 0
            then mkOptions 1 (MaxStackSize o) (Timeout o) (CloseTimeout o)
            else o in
  {| options := o'; stk := newStack (MaxStackSize o'); closing := false;
     busy := 0; hasQuit := false; closeTimeout := false |}.

Definition New : Stack := With (mkOptions 0 0 0 0).

(** The loop of [rejectQueued]; it needs at most as many rounds as there
    are jobs in the stack. *)
Fixpoint rejectQueued_loop (rounds : nat) (st : stack) : option (stack * list output) :=
  if empty st then Some (st, [])
  else match rounds with
       | O => None
       | S n =>
           match shift st with
           | None => None
           | Some (j, st') =>
               match rejectQueued_loop n st' with
               | None => None
               | Some (st'', out) => Some (st'', Notify (notify j) (Some ErrClosed) :: out)
               end
           end
       end.

Definition rejectQueued (s : Stack) : option (Stack * list output) :=
  match rejectQueued_loop (length (lst (stk s))) (stk s) with
  | None => None
  | Some (st, out) => Some (set_stk s st, out)
  end.

(** The arrival of a job, [case j := <-s.req]. *)
Definition on_req (s : Stack) (j : job) : option (Stack * list output) :=
  if closing s then
    Some (s, [Notify (notify j) (Some ErrClosed)])
  else if busy s <? MaxConcurrency (options s) then
    Some (set_busy s (incr (busy s)), [Notify (notify j) None])
  else if full (stk s) then
    match shift (stk s) with
    | None => None
    | Some (oldest, st') =>
        Some (set_stk s (push st' j), [Notify (notify oldest) (Some ErrStackFull)])
    end
  else
    Some (set_stk s (push (stk s) j), []).

(** The completion of a job, [case <-s.done]. *)
Definition on_done (s : Stack) : option (Stack * list output) :=
  let s1 := set_busy s (decr (busy s)) in
  match (if negb (empty (stk s1)) then
           match pop (stk s1) with
           | None => None
           | Some (j, st') =>
               Some (set_stk (set_busy s1 (incr (busy s1))) st', [Notify (notify j) None])
           end
         else Some (s1, []))
  with
  | None => None
  | Some (s2, out) =>
      if closing s2 && (busy s2 =? 0) && empty (stk s2)
      then Some (close_hasQuit s2, out)
      else Some (s2, out)
  end.

(** The timer of the oldest job, [case <-timeout].  [timeout] is [nil], and
    never chosen, when the stack is empty or the oldest job has no timer. *)
Definition on_timeout (s : Stack) : option (Stack * list output) :=
  match bottom (stk s) with
  | None => None
  | Some oldest =>
      if timeout oldest then
        match shift (stk s) with
        | None => None
        | Some (_, st') => Some (set_stk s st', [Notify (notify oldest) (Some ErrTimeout)])
        end
      else None
  end.

Definition on_status (s : Stack) : option (Stack * list output) :=
  Some (s, [Reply {| ActiveJobs := busy s; QueuedJobs := Len (stk s);
                     Closing := closing s; Closed := false |}]).

Definition on_quit (s : Stack) (forced : bool) : option (Stack * list output) :=
  if forced then
    match rejectQueued s with
    | None => None
    | Some (s', out) => Some (close_hasQuit s', out)
    end
  else
    let s1 := set_closing s true in
    if (busy s1 =? 0) && empty (stk s1) then Some (close_hasQuit s1, [])
    else if CloseTimeout (options s1) >? 0 then Some (set_closeTimeout s1 true, [])
    else Some (s1, []).

(** [case <-closeTimeout]: never chosen while [closeTimeout] is [nil]. *)
Definition on_closeTimeout (s : Stack) : option (Stack * list output) :=
  if closeTimeout s then
    match rejectQueued s with
    | None => None
    | Some (s', out) => Some (close_hasQuit s', out)
    end
  else None.

(** One iteration of [run].  [None]: the communication cannot be chosen in
    this state (the loop has returned, or the timer channel is [nil]), or
    the iteration panics. *)
Definition run (s : Stack) (ev : event) : option (Stack * list output) :=
  if hasQuit s then None
  else match ev with
       | EvReq j => on_req s j
       | EvDone => on_done s
       | EvTimeout => on_timeout s
       | EvStatus => on_status s
       | EvQuit forced => on_quit s forced
       | EvCloseTimeout => on_closeTimeout s
       end.

(** ** The cases of the loop, told apart *)

(** The four cases of an arrival. *)
Inductive req_case (s : Stack) (j : job) : Stack -> list output -> Prop :=
| req_closed :
    closing s = true ->
    req_case s j s [Notify (notify j) (Some ErrClosed)]
| req_grant :
    closing s = false -> busy s < MaxConcurrency (options s) ->
    req_case s j (set_busy s (incr (busy s))) [Notify (notify j) None]
| req_displace rest oldest :
    closing s = false -> MaxConcurrency (options s) <= busy s ->
    full (stk s) = true -> lst (stk s) = rest ++ [oldest] ->
    req_case s j (set_stk s (mkStack (cap (stk s)) (j :: rest)))
      [Notify (notify oldest) (Some ErrStackFull)]
| req_push :
    closing s = false -> MaxConcurrency (options s) <= busy s ->
    full (stk s) = false ->
    req_case s j (set_stk s (mkStack (cap (stk s)) (j :: lst (stk s)))) [].

(** What a completion does before it looks at [closing]. *)
Definition done_next (s : Stack) : Stack * list output :=
  match lst (stk s) with
  | [] => (set_busy s (decr (busy s)), [])
  | j :: rest =>
      (set_stk (set_busy s (incr (decr (busy s)))) (mkStack (cap (stk s)) rest),
       [Notify (notify j) None])
  end.

Definition drained (s : Stack) : bool :=
  closing s && (busy s =? 0) && empty (stk s).

Definition rejected (s : Stack) : Stack * list output :=
  (close_hasQuit (set_stk s (mkStack (cap (stk s)) [])),
   notify_all ErrClosed (rev (lst (stk s)))).

(** A completion ends the loop when the queue is closing and drained. *)
Definition finish (s : Stack) : Stack :=
  if drained s then close_hasQuit s else s.

(** The state after a graceful close request. *)
Definition graceful (s : Stack) : Stack :=
  if (busy s =? 0) && empty (stk s) then close_hasQuit (set_closing s true)
  else if CloseTimeout (options s) >? 0
       then set_closeTimeout (set_closing s true) true
       else set_closing s true.

(** All the cases of one iteration. *)
Inductive loop_case (s : Stack) : event -> Stack -> list output -> Prop :=
| lc_req j s' out :
    req_case s j s' out -> loop_case s (EvReq j) s' out
| lc_done_idle :
    lst (stk s) = [] ->
    loop_case s EvDone (finish (set_busy s (decr (busy s)))) []
| lc_done_next j rest :
    lst (stk s) = j :: rest ->
    loop_case s EvDone
      (finish (set_stk (set_busy s (incr (decr (busy s)))) (mkStack (cap (stk s)) rest)))
      [Notify (notify j) None]
| lc_timeout rest oldest :
    lst (stk s) = rest ++ [oldest] -> timeout oldest = true ->
    loop_case s EvTimeout (set_stk s (mkStack (cap (stk s)) rest))
      [Notify (notify oldest) (Some ErrTimeout)]
| lc_status :
    loop_case s EvStatus s
      [Reply {| ActiveJobs := busy s; QueuedJobs := Len (stk s);
                Closing := closing s; Closed := false |}]
| lc_forced :
    loop_case s (EvQuit true) (fst (rejected s)) (snd (rejected s))
| lc_graceful :
    loop_case s (EvQuit false) (graceful s) []
| lc_closeTimeout :
    closeTimeout s = true ->
    loop_case s EvCloseTimeout (fst (rejected s)) (snd (rejected s)).

(** ** The callers' side *)

Definition newJob (s : Stack) (c : chan) : job :=
  {| notify := c; timeout := Timeout (options s) >? 0 |}.

Fixpoint find_notify (c : chan) (out : list output) : option result :=
  match out with
  | [] => None
  | Notify c' r :: t => if Nat.eqb c c' then Some r else find_notify c t
  | Reply _ :: t => find_notify c t
  end.

Fixpoint find_reply (out : list output) : option Status :=
  match out with
  | [] => None
  | Reply st :: _ => Some st
  | Notify _ _ :: t => find_reply t
  end.

(** What a call did: whether it handed something to the loop, the state
    and the values sent by the loop in that iteration, and what the call
    returned ([None] while the caller is still receiving). *)
Record called (A : Type) : Type := mkCalled {
  engaged : bool;
  after : Stack;
  outs : list output;
  ret : option A
}.
Arguments mkCalled {A}.
Arguments engaged {A}.
Arguments after {A}.
Arguments outs {A}.
Arguments ret {A}.

(** [Wait]: the job is made first; the [select] then either hands it to
    the loop, which is possible while the loop runs, or finds [hasQuit]
    closed.  The call returns once a value arrives on [j.notify]. *)
Definition Wait (s : Stack) (c : chan) : option (called result) :=
  let j := newJob s c in
  if hasQuit s then Some (mkCalled false s [] (Some (Some ErrClosed)))
  else match run s (EvReq j) with
       | None => None
       | Some (s', out) => Some (mkCalled true s' out (find_notify (notify j) out))
       end.

(** The [done] function returned by [Wait] with the error [err]. *)
Definition done_func (err : result) (s : Stack) : option (called unit) :=
  match err with
  | Some _ => Some (mkCalled false s [] (Some tt))
  | None =>
      if hasQuit s then Some (mkCalled false s [] (Some tt))
      else match run s EvDone with
           | None => None
           | Some (s', out) => Some (mkCalled true s' out (Some tt))
           end
  end.

Definition StatusCall (s : Stack) : option (called Status) :=
  if hasQuit s then
    Some (mkCalled false s []
            (Some {| ActiveJobs := 0; QueuedJobs := 0; Closing := false; Closed := true |}))
  else match run s EvStatus with
       | None => None
       | Some (s', out) => Some (mkCalled true s' out (find_reply out))
       end.

Definition quit_call (forced : bool) (s : Stack) : option (called unit) :=
  if hasQuit s then Some (mkCalled false s [] (Some tt))
  else match run s (EvQuit forced) with
       | None => None
       | Some (s', out) => Some (mkCalled true s' out (Some tt))
       end.

Definition Close : Stack -> option (called unit) := quit_call false.
Definition CloseForced : Stack -> option (called unit) := quit_call true.

(** ** The loop together with its callers *)

(** The queue, the number of jobs made by [Wait] so far (the next fresh
    channel), all the values the loop has sent (oldest first), the jobs it
    has received over [s.req] (latest first) and the number of tokens it has
    received over [s.done]. *)
Record system : Type := mkSystem {
  queue : Stack;
  made : nat;
  sent : list output;
  reqs : list chan;
  tokens : nat
}.

(** What can happen next: a call of the package's functions by some
    goroutine, or one of the two timers firing. *)
Inductive call : Type :=
| CallWait
| CallDone          (* the done function of a Wait that returned nil *)
| CallStatus
| CallClose
| CallCloseForced
| FireTimeout
| FireCloseTimeout.

Definition start (o : Options) : system :=
  {| queue := With o; made := 0; sent := []; reqs := []; tokens := 0 |}.

Definition by_loop (w : system) (r : option (Stack * list output)) : option system :=
  match r with
  | None => None
  | Some (s', out) =>
      Some {| queue := s'; made := made w; sent := sent w ++ out;
              reqs := reqs w; tokens := tokens w |}
  end.

Definition by_call {A : Type} (w : system) (r : option (called A)) : option system :=
  match r with
  | None => None
  | Some r =>
      Some {| queue := after r; made := made w; sent := sent w ++ outs r;
              reqs := reqs w; tokens := tokens w |}
  end.

Definition step (w : system) (c : call) : option system :=
  match c with
  | CallWait =>
      match Wait (queue w) (made w) with
      | None => None
      | Some r =>
          Some {| queue := after r; made := S (made w); sent := sent w ++ outs r;
                  reqs := if engaged r then made w :: reqs w else reqs w;
                  tokens := tokens w |}
      end
  | CallDone =>
      match done_func None (queue w) with
      | None => None
      | Some r =>
          Some {| queue := after r; made := made w; sent := sent w ++ outs r;
                  reqs := reqs w;
                  tokens := if engaged r then S (tokens w) else tokens w |}
      end
  | CallStatus => by_call w (StatusCall (queue w))
  | CallClose => by_call w (Close (queue w))
  | CallCloseForced => by_call w (CloseForced (queue w))
  | FireTimeout => by_loop w (run (queue w) EvTimeout)
  | FireCloseTimeout => by_loop w (run (queue w) EvCloseTimeout)
  end.

Fixpoint exec (w : system) (cs : list call) : option system :=
  match cs with
  | [] => Some w
  | c :: cs' => match step w c with None => None | Some w' => exec w' cs' end
  end.

(** The values sent on channel [c] so far. *)
Fixpoint values_on (c : chan) (out : list output) : list result :=
  match out with
  | [] => []
  | Notify c' r :: t => if Nat.eqb c c' then r :: values_on c t else values_on c t
  | Reply _ :: t => values_on c t
  end.

(** The number of jobs that were let in ([nil] sent on their channel). *)
Fixpoint granted (out : list output) : nat :=
  match out with
  | [] => 0
  | Notify _ None :: t => S (granted t)
  | _ :: t => granted t
  end.

(** Every done function is called at most once: a token is only sent for
    a job that was let in and has not sent one yet. *)
Definition once (w : system) (c : call) : bool :=
  match c with
  | CallDone => (tokens w <? granted (sent w))%nat
  | _ => true
  end.

Fixpoint exec_once (w : system) (cs : list call) : option system :=
  match cs with
  | [] => Some w
  | c :: cs' =>
      if once w c
      then match step w c with None => None | Some w' => exec_once w' cs' end
      else None
  end.

Definition queued (w : system) : list chan := map notify (lst (stk (queue w))).

Definition no_forced_end (c : call) : bool :=
  match c with
  | CallCloseForced | FireCloseTimeout => false
  | _ => true
  end.

Definition opts_in_int (o : Options) : Prop :=
  in_int (MaxConcurrency o) /\ in_int (MaxStackSize o).

(** ** Invariants of the running system *)

(** The communication a call amounts to when the loop takes it. *)
Definition event_of (w : system) (c : call) : event :=
  match c with
  | CallWait => EvReq (newJob (queue w) (made w))
  | CallDone => EvDone
  | CallStatus => EvStatus
  | CallClose => EvQuit false
  | CallCloseForced => EvQuit true
  | FireTimeout => EvTimeout
  | FireCloseTimeout => EvCloseTimeout
  end.

Definition is_timer (c : call) : bool :=
  match c with
  | FireTimeout | FireCloseTimeout => true
  | _ => false
  end.

(** The ghost fields after the loop has taken call [c]. *)
Definition taken (w : system) (c : call) (s' : Stack) (out : list output) : system :=
  {| queue := s';
     made := match c with CallWait => S (made w) | _ => made w end;
     sent := sent w ++ out;
     reqs := match c with CallWait => made w :: reqs w | _ => reqs w end;
     tokens := match c with CallDone => S (tokens w) | _ => tokens w end |}.

(** The ghost fields after a call that found [hasQuit] closed. *)
Definition untaken (w : system) (c : call) : system :=
  {| queue := queue w;
     made := match c with CallWait => S (made w) | _ => made w end;
     sent := sent w;
     reqs := reqs w;
     tokens := tokens w |}.

Definition mem (c : chan) (l : list chan) : bool := existsb (Nat.eqb c) l.

(** The options never change, and neither does the capacity. *)
Record inv_frame (o : Options) (w : system) : Prop := {
  frame_options : options (queue w) = normalize o;
  frame_cap : cap (stk (queue w)) = MaxStackSize o
}.

(** The stack never holds more than its capacity, when it has one. *)
Definition inv_bound (w : system) : Prop :=
  0 < cap (stk (queue w)) -> Len (stk (queue w)) <= cap (stk (queue w)).

(** The counter and the flags. *)
Record inv_busy (w : system) : Prop := {
  busy_int : in_int (busy (queue w));
  busy_slot : lst (stk (queue w)) <> [] ->
              MaxConcurrency (options (queue w)) <= busy (queue w);
  quit_empty : hasQuit (queue w) = true -> lst (stk (queue w)) = [];
  closing_busy : hasQuit (queue w) = false -> closing (queue w) = true ->
                 ~ (busy (queue w) = 0 /\ lst (stk (queue w)) = []);
  timer_armed : hasQuit (queue w) = false ->
                closeTimeout (queue w) =
                  closing (queue w) && (CloseTimeout (options (queue w)) >? 0)
}.

(** Where every job is, given the channels of the waiting jobs (the
    newest first), the jobs that came in over [s.req], the number of jobs
    made and the values sent: the waiting jobs came in and nothing was sent
    to them; every other job that came in was sent one value; a job that
    never came in was sent nothing. *)
Record jobs_ok (Q R : list chan) (m : nat) (out : list output) : Prop := {
  jobs_sorted : StronglySorted (fun a b => (b < a)%nat) Q;
  jobs_queued : forall c, In c Q -> In c R;
  jobs_made : forall c, In c R -> (c < m)%nat;
  jobs_values : forall c,
    length (values_on c out) = if mem c R && negb (mem c Q) then 1%nat else 0%nat
}.

Definition inv_jobs (w : system) : Prop :=
  jobs_ok (queued w) (reqs w) (made w) (sent w).

(** With every done function called at most once, the counter is the
    number of jobs let in that have not sent their token. *)
Record inv_once (w : system) : Prop := {
  once_count : busy (queue w) = Z.of_nat (granted (sent w)) - Z.of_nat (tokens w);
  once_tokens : (tokens w <= granted (sent w))%nat;
  once_max : busy (queue w) <= MaxConcurrency (options (queue w))
}.

(** ** The HTTP handler *)

Definition StatusOK : Z := 200.
Definition StatusNotFound : Z := 404.
Definition StatusServiceUnavailable : Z := 503.

(** A response writer that records what it is given, the way the
    writers of [net/http] do: the first [WriteHeader] fixes the status code,
    and a [Write] before any [WriteHeader] sends [200]. *)
Record ResponseWriter : Type := mkWriter {
  wroteHeader : bool;
  code : Z;
  body : list Z
}.

Definition fresh_writer : ResponseWriter :=
  {| wroteHeader := false; code := 0; body := [] |}.

Definition WriteHeader (w : ResponseWriter) (c : Z) : ResponseWriter :=
  if wroteHeader w then w
  else {| wroteHeader := true; code := c; body := body w |}.

Definition Write (w : ResponseWriter) (b : list Z) : ResponseWriter :=
  let w' := WriteHeader w StatusOK in
  {| wroteHeader := wroteHeader w'; code := code w'; body := body w' ++ b |}.

Record HTTPOptions : Type := mkHTTPOptions {
  Options_ : Options;
  StackFullStatusCode : Z;
  TimeoutStatusCode : Z
}.

Section HTTP.

Variable Request : Type.

(** [http.Handler]: [ServeHTTP(w, r)] acts on the writer. *)
Definition http_Handler : Type := ResponseWriter -> Request -> ResponseWriter.

Record Handler : Type := mkHandler {
  h_options : HTTPOptions;
  h_handler : http_Handler;
  h_stack : Stack
}.

Definition nop404 : http_Handler := fun w _ => WriteHeader w StatusNotFound.

Definition NewHandler (o : HTTPOptions) (h : option http_Handler) : Handler :=
  let s := With (Options_ o) in
  let h := match h with None => nop404 | Some h => h end in
  let o := if StackFullStatusCode o =? 0
           then mkHTTPOptions (Options_ o) StatusServiceUnavailable (TimeoutStatusCode o)
           else o in
  let o := if TimeoutStatusCode o =? 0
           then mkHTTPOptions (Options_ o) (StackFullStatusCode o) StatusServiceUnavailable
           else o in
  {| h_options := o; h_stack := s; h_handler := h |}.

(** [Do], given the error that its call of [Wait] returns: the job runs
    only when that is [nil]. *)
Definition Do (wait_err : result) (job : ResponseWriter -> ResponseWriter)
  (w : ResponseWriter) : ResponseWriter * result :=
  match wait_err with
  | Some e => (w, Some e)
  | None => (job w, None)
  end.

Definition ServeHTTP (h : Handler) (wait_err : result) (w : ResponseWriter)
  (r : Request) : ResponseWriter :=
  let (w', err) := Do wait_err (fun w => h_handler h w r) w in
  match err with
  | Some ErrStackFull => WriteHeader w' (StackFullStatusCode (h_options h))
  | Some ErrTimeout => WriteHeader w' (TimeoutStatusCode (h_options h))
  | _ => w'
  end.

End HTTP.

Arguments mkHandler {Request}.
Arguments h_options {Request}.
Arguments h_handler {Request}.
Arguments h_stack {Request}.
Arguments nop404 {Request}.
Arguments NewHandler {Request}.
Arguments ServeHTTP {Request}.

(** ** Reconfigure *)

(** Modelled from the spec: the replacement of the options by
    [Reconfigure], which is missing from the sources at hand; the capacity
    of the stack follows the new [MaxStackSize]. *)
Definition set_options (s : Stack) (o : Options) : Stack :=
  {| options := o; stk := {| cap := MaxStackSize o; lst := lst (stk s) |};
     closing := closing s; busy := busy s; hasQuit := hasQuit s;
     closeTimeout := closeTimeout s |}.

(** Modelled from the spec: the trimming loop of [Reconfigure], which is
    missing from the sources at hand.  It drops the oldest job with
    [ErrStackFull] while the stack holds more than its capacity. *)
Fixpoint trim_loop (rounds : nat) (st : stack) : option (stack * list output) :=
  if (cap st >? 0) && (Len st >? cap st) then
    match rounds with
    | O => None
    | S n =>
        match shift st with
        | None => None
        | Some (j, st') =>
            match trim_loop n st' with
            | None => None
            | Some (st'', out) => Some (st'', Notify (notify j) (Some ErrStackFull) :: out)
            end
        end
    end
  else Some (st, []).

(** Modelled from the spec: the promoting loop of [Reconfigure], which is
    missing from the sources at hand.  It lets the newest job in while there
    is a free slot and a job waiting. *)
Fixpoint promote_loop (rounds : nat) (s : Stack) : option (Stack * list output) :=
  if (busy s <? MaxConcurrency (options s)) && negb (empty (stk s)) then
    match rounds with
    | O => None
    | S n =>
        match pop (stk s) with
        | None => None
        | Some (j, st') =>
            match promote_loop n (set_stk (set_busy s (incr (busy s))) st') with
            | None => None
            | Some (s', out) => Some (s', Notify (notify j) None :: out)
            end
        end
    end
  else Some (s, []).

(** Modelled from the spec: the two steps of [Reconfigure] on the state of
    the loop, each loop given as many rounds as there are waiting jobs. *)
Definition trim (s : Stack) : option (Stack * list output) :=
  match trim_loop (length (lst (stk s))) (stk s) with
  | None => None
  | Some (st, out) => Some (set_stk s st, out)
  end.

Definition promote (s : Stack) : option (Stack * list output) :=
  promote_loop (length (lst (stk s))) s.

(** The number of waiting jobs that find a free slot. *)
Definition slots (s : Stack) : nat :=
  Z.to_nat (Z.min (Len (stk s)) (Z.max 0 (MaxConcurrency (options s) - busy s))).

(** [nil] sent to each job of a list. *)
Definition let_in (l : list job) : list output :=
  map (fun j => Notify (notify j) None) l.

(** The jobs that stay when a stack is trimmed to capacity [c]: the
    newest [c] of them, or all when [c] sets no bound. *)
Definition kept (c : Z) (l : list job) : list job :=
  if c >? 0 then firstn (Z.to_nat c) l else l.

(** Modelled from the spec: the method [Reconfigure] and its case in the
    loop are missing from the sources at hand; only [TestReconfigure] calls
    it.  This definition follows the steps of the specification in the order
    it gives them: normalize, replace the options, trim, then promote. *)
Definition Reconfigure_as_specified (s : Stack) (o : Options) : option (called result) :=
  if hasQuit s then Some (mkCalled false s [] (Some (Some ErrClosed)))
  else
    let s1 := set_options s (normalize o) in
    match trim s1 with
    | None => None
    | Some (s2, out1) =>
        match promote s2 with
        | None => None
        | Some (s3, out2) => Some (mkCalled true s3 (out1 ++ out2) (Some None))
        end
    end.

(** Modelled from the spec: the method [Reconfigure] and its case in the
    loop are missing from the sources at hand; only [TestReconfigure] calls
    it.  The steps are those of the specification, with the waiting jobs
    let in before the stack is trimmed, which is the order the expected
    statuses of [TestReconfigure] need. *)
Definition Reconfigure (s : Stack) (o : Options) : option (called result) :=
  if hasQuit s then Some (mkCalled false s [] (Some (Some ErrClosed)))
  else
    let s1 := set_options s (normalize o) in
    match promote s1 with
    | None => None
    | Some (s2, out1) =>
        match trim s2 with
        | None => None
        | Some (s3, out2) => Some (mkCalled true s3 (out1 ++ out2) (Some None))
        end
    end.

(** The status a call of [Status] gets. *)
Definition status_of (s : Stack) : option Status :=
  match StatusCall s with
  | None => None
  | Some r => ret r
  end.

(** [TestReconfigure], "apply changes": the queue is made with a
    concurrency of 2 and a stack size of 2, and four jobs wait on it. *)
Definition saturated : option system :=
  exec (start (mkOptions 2 2 0 0)) [CallWait; CallWait; CallWait; CallWait].

(** The table of that test: the options given to [Reconfigure] and the
    status expected afterwards. *)
Definition TestReconfigure_cases : list (Options * Status) :=
  [ (mkOptions 2 2 0 0, mkStatus 2 2 false false);
    (mkOptions 2 3 0 0, mkStatus 2 2 false false);
    (mkOptions 2 1 0 0, mkStatus 2 1 false false);
    (mkOptions 3 2 0 0, mkStatus 3 1 false false);
    (mkOptions 3 3 0 0, mkStatus 3 1 false false);
    (mkOptions 3 1 0 0, mkStatus 3 1 false false);
    (mkOptions 1 2 0 0, mkStatus 2 2 false false);
    (mkOptions 1 3 0 0, mkStatus 2 2 false false);
    (mkOptions 1 1 0 0, mkStatus 2 1 false false) ].

Definition Status_eqb (a b : Status) : bool :=
  (ActiveJobs a =? ActiveJobs b) && (QueuedJobs a =? QueuedJobs b)
  && Bool.eqb (Closing a) (Closing b) && Bool.eqb (Closed a) (Closed b).

(** Run one row of the table with the given implementation. *)
Definition passes (reconf : Stack -> Options -> option (called result))
  (row : Options * Status) : bool :=
  match saturated with
  | None => false
  | Some w =>
      match status_of (queue w) with
      | Some st0 =>
          Status_eqb st0 (mkStatus 2 2 false false) &&
          match reconf (queue w) (fst row) with
          | Some r =>
              match ret r, status_of (after r) with
              | Some None, Some st => Status_eqb st (snd row)
              | _, _ => false
              end
          | None => false
          end
      | None => false
      end
  end.

(** [TestReconfigure], "use default concurrency": a queue made with a
    concurrency of 2 and a stack size of 2 is reconfigured with a
    concurrency of 0; of two jobs that come then, one is let in and one
    waits. *)
Definition passes_default (reconf : Stack -> Options -> option (called result)) : bool :=
  match reconf (With (mkOptions 2 2 0 0)) (mkOptions 0 2 0 0) with
  | Some r =>
      match exec {| queue := after r; made := 0; sent := outs r; reqs := []; tokens := 0 |}
                 [CallWait; CallWait] with
      | Some w =>
          match status_of (queue w) with
          | Some st => Status_eqb st (mkStatus 1 1 false false)
          | None => false
          end
      | None => false
      end
  | None => false
  end.

(** [TestReconfigure], "reconfigure after closed". *)
Definition passes_closed (reconf : Stack -> Options -> option (called result)) : bool :=
  match exec (start (mkOptions 0 0 0 0)) [CallClose] with
  | Some w =>
      hasQuit (queue w) &&
      match reconf (queue w) (mkOptions 0 0 0 0) with
      | Some r => match ret r with Some (Some ErrClosed) => true | _ => false end
      | None => false
      end
  | None => false
  end.

(** ** Runs with [Reconfigure] *)

(** Modelled from the spec: [Reconfigure] is missing from the sources at
    hand.  A run that also has calls of it: each is taken like the other
    calls, by the loop while it runs, and answered with [ErrClosed] without
    the loop once [hasQuit] is closed. *)
Inductive op : Type :=
| Op (c : call)
| OpReconfigure (o : Options).

(** Modelled from the spec: one step of a run that may call
    [Reconfigure], which is missing from the sources at hand. *)
Definition step_r (w : system) (x : op) : option system :=
  match x with
  | Op c => step w c
  | OpReconfigure o => by_call w (Reconfigure (queue w) o)
  end.

(** Modelled from the spec: a run that may call [Reconfigure]. *)
Fixpoint exec_r (w : system) (ops : list op) : option system :=
  match ops with
  | [] => Some w
  | x :: ops' => match step_r w x with None => None | Some w' => exec_r w' ops' end
  end.

Definition once_r (w : system) (x : op) : bool :=
  match x with
  | Op c => once w c
  | OpReconfigure _ => true
  end.

(** Modelled from the spec: a run that may call [Reconfigure], with every
    done function called at most once. *)
Fixpoint exec_r_once (w : system) (ops : list op) : option system :=
  match ops with
  | [] => Some w
  | x :: ops' =>
      if once_r w x
      then match step_r w x with None => None | Some w' => exec_r_once w' ops' end
      else None
  end.

(** The options given to a call of [Reconfigure] satisfy [P]. *)
Definition given (P : Options -> Prop) (x : op) : Prop :=
  match x with
  | Op _ => True
  | OpReconfigure o => P o
  end.

(** A call other than [Reconfigure]. *)
Definition plain (x : op) : bool :=
  match x with
  | Op _ => true
  | OpReconfigure _ => false
  end.

(** The counter along runs that may reconfigure: it stays an [int], it
    has reached [MaxConcurrency] whenever a job waits, and it counts the
    jobs let in that have not sent their token. *)
Record inv_slot (w : system) : Prop := {
  slot_int : in_int (busy (queue w));
  slot_max : in_int (MaxConcurrency (options (queue w)));
  slot_pos : 1 <= MaxConcurrency (options (queue w));
  slot_waiting : lst (stk (queue w)) <> [] ->
                 MaxConcurrency (options (queue w)) <= busy (queue w);
  slot_count : busy (queue w) = Z.of_nat (granted (sent w)) - Z.of_nat (tokens w);
  slot_tokens : (tokens w <= granted (sent w))%nat
}.

(** ** Counting what was sent *)

(** The number of values sent on job channels. *)
Fixpoint answered (out : list output) : nat :=
  match out with
  | [] => 0
  | Notify _ _ :: t => S (answered t)
  | Reply _ :: t => answered t
  end.

(** Whether the error [e] was sent to some job. *)
Fixpoint sends (e : error) (out : list output) : bool :=
  match out with
  | [] => false
  | Notify _ (Some e') :: t => error_eqb e e' || sends e t
  | _ :: t => sends e t
  end.

(** The loop taking [n] completions in a row. *)
Definition completions (n : nat) : list call := repeat CallDone n.

(** [n] completions in a row end the loop, not before the last one, and
    the loop sends [out] meanwhile. *)
Definition drains (w : system) (n : nat) (out : list output) : Prop :=
  (exists w', exec w (completions n) = Some w' /\
              hasQuit (queue w') = true /\ sent w' = sent w ++ out) /\
  (forall m, (m < n)%nat ->
     exists wm, exec w (completions m) = Some wm /\ hasQuit (queue wm) = false).

(** ** [MoveTo] ([stack.go], the first version of the queue) *)

(** [MoveTo] reads and writes the counter and the stack of two queues,
    taken here to be two different ones.  A round pops the source stack,
    which panics ([None]) when it is empty; the popped job is never [nil].
    The counter of the source falls in every round, which bounds the
    rounds. *)
Fixpoint MoveTo_loop (rounds : nat) (s newStack : Stack) : option (Stack * Stack) :=
  if (busy s >? 0) && (busy newStack <? cap (stk newStack)) then
    match rounds with
    | O => None
    | S n =>
        match pop (stk s) with
        | None => None
        | Some (j, st') =>
            MoveTo_loop n
              (set_stk (set_busy s (decr (busy s))) st')
              (set_busy (set_stk newStack (push (stk newStack) j)) (incr (busy newStack)))
        end
    end
  else Some (s, newStack).

Definition MoveTo (s newStack : Stack) : option (Stack * Stack) :=
  MoveTo_loop (Z.to_nat (busy s)) s newStack.

(** The number of rounds [MoveTo] goes for. *)
Definition moves (s newStack : Stack) : nat :=
  Z.to_nat (Z.min (busy s) (cap (stk newStack) - busy newStack)).

(** What [MoveTo] has done after [k] rounds: [k] jobs went from the top
    of the source stack onto the new stack, the first one popped lying
    lowest, and the two counters moved by [k]. *)
Definition moved (k : nat) (s newStack s' newStack' : Stack) : Prop :=
  busy s' = busy s - Z.of_nat k /\
  lst (stk s') = skipn k (lst (stk s)) /\
  busy newStack' = busy newStack + Z.of_nat k /\
  lst (stk newStack') = rev (firstn k (lst (stk s))) ++ lst (stk newStack) /\
  cap (stk s') = cap (stk s) /\ cap (stk newStack') = cap (stk newStack) /\
  options s' = options s /\ options newStack' = options newStack.

(** ** The loop of [jobqueue.go] *)

Module V1.

(** The queue of [jobqueue.go] has no [closing] flag and no close timer;
    [Close] closes the channel [quit], which the loop then finds ready. *)
Record Stack : Type := mkQueue {
  options : Options;
  stk : stack;
  busy : Z;
  hasQuit : bool
}.

Record Status : Type := mkStatus {
  Active : Z;
  Queued : Z
}.

Inductive event : Type :=
| EvReq (j : job)
| EvDone
| EvTimeout
| EvQuit.

Definition run (s : Stack) (ev : event) : option (Stack * list output) :=
  if hasQuit s then None
  else match ev with
       | EvReq j =>
           if busy s <? MaxConcurrency (options s) then
             Some (mkQueue (options s) (stk s) (incr (busy s)) (hasQuit s),
                   [Notify (notify j) None])
           else if full (stk s) then
             match shift (stk s) with
             | None => None
             | Some (oldest, st') =>
                 Some (mkQueue (options s) (push st' j) (busy s) (hasQuit s),
                       [Notify (notify oldest) (Some ErrStackFull)])
             end
           else Some (mkQueue (options s) (push (stk s) j) (busy s) (hasQuit s), [])
       | EvDone =>
           let b := decr (busy s) in
           if negb (empty (stk s)) then
             match pop (stk s) with
             | None => None
             | Some (j, st') =>
                 Some (mkQueue (options s) st' (incr b) (hasQuit s),
                       [Notify (notify j) None])
             end
           else Some (mkQueue (options s) (stk s) b (hasQuit s), [])
       | EvTimeout =>
           match bottom (stk s) with
           | None => None
           | Some oldest =>
               if timeout oldest then
                 match shift (stk s) with
                 | None => None
                 | Some (_, st') =>
                     Some (mkQueue (options s) st' (busy s) (hasQuit s),
                           [Notify (notify oldest) (Some ErrTimeout)])
                 end
               else None
           end
       | EvQuit =>
           match rejectQueued_loop (length (lst (stk s))) (stk s) with
           | None => None
           | Some (st', out) => Some (mkQueue (options s) st' (busy s) true, out)
           end
       end.

(** [case statusRequest := <-s.status] *)
Definition status_reply (s : Stack) : Status :=
  {| Active := busy s; Queued := Len (stk s) |}.

End V1.

(** The queue of [jobqueue.go] seen as a queue of the later version that
    is not closing. *)
Definition later (s : V1.Stack) : Stack :=
  {| options := V1.options s; stk := V1.stk s; closing := false;
     busy := V1.busy s; hasQuit := V1.hasQuit s; closeTimeout := false |}.

Definition later_event (ev : V1.event) : event :=
  match ev with
  | V1.EvReq j => EvReq j
  | V1.EvDone => EvDone
  | V1.EvTimeout => EvTimeout
  | V1.EvQuit => EvQuit true
  end.

Definition later_result (r : option (V1.Stack * list output)) : option (Stack * list output) :=
  match r with
  | None => None
  | Some (s, out) => Some (later s, out)
  end.

(** * Properties *)

(** Split on every condition left in the goal. *)
Ltac case_ifs :=
  repeat match goal with |- context [if ?b then _ else _] => destruct b end.


(** ** Arithmetic of [int] *)

Lemma wrap_in_int z : in_int (wrap z).
Proof.
  unfold in_int, wrap, min_int, max_int.
  pose proof (Z.mod_pos_bound (z + 2 ^ 63) (2 ^ 64) ltac:(lia)). lia.
Qed.

Lemma wrap_id z : in_int z -> wrap z = z.
Proof.
  unfold in_int, wrap, min_int, max_int. intros H.
  rewrite Z.mod_small by lia. lia.
Qed.

Lemma incr_below z m : in_int z -> in_int m -> z < m -> incr z = z + 1.
Proof.
  unfold incr, in_int. intros Hz Hm Hlt. apply wrap_id. unfold in_int. lia.
Qed.

Lemma decr_above z : in_int z -> min_int < z -> decr z = z - 1.
Proof.
  unfold decr, in_int. intros Hz Hlt. apply wrap_id. unfold in_int. lia.
Qed.

Lemma incr_decr z : in_int z -> incr (decr z) = z.
Proof.
  unfold incr, decr, wrap, in_int, min_int, max_int. intros Hz.
  destruct (Z.eq_dec z (- 2 ^ 63)) as [-> | Hne].
  - reflexivity.
  - rewrite (Z.mod_small (z - 1 + 2 ^ 63)) by lia.
    replace (z - 1 + 2 ^ 63 - 2 ^ 63 + 1 + 2 ^ 63) with (z + 2 ^ 63) by lia.
    rewrite Z.mod_small by lia. lia.
Qed.

(** ** The stack *)

Lemma remove_at_last (l : list job) (j : job) :
  remove_at (length (l ++ [j]) - 1) (l ++ [j]) = l.
Proof.
  induction l as [| x l IH]; simpl.
  - reflexivity.
  - rewrite length_app in *. simpl in *.
    replace (length l + 1 - 0)%nat with (S (length l)) by lia.
    replace (length l + 1 - 1)%nat with (length l) in IH by lia.
    destruct l as [| y l']; simpl in *.
    + reflexivity.
    + f_equal. exact IH.
Qed.

Lemma nth_error_last (l : list job) (j : job) :
  nth_error (l ++ [j]) (length (l ++ [j]) - 1) = Some j.
Proof.
  rewrite length_app. simpl.
  replace (length l + 1 - 1)%nat with (length l) by lia.
  rewrite nth_error_app2 by lia. rewrite Nat.sub_diag. reflexivity.
Qed.

Lemma snoc_cases (l : list job) : l = [] \/ exists l' j, l = l' ++ [j].
Proof.
  destruct l as [| x l]; [left; reflexivity | right].
  destruct (@exists_last _ (x :: l) ltac:(discriminate)) as [l' [j ->]]. eauto.
Qed.

Lemma Back_snoc c l j :
  Back (mkStack c (l ++ [j])) = Some (length (l ++ [j]) - 1)%nat.
Proof. unfold Back. simpl. destruct l; reflexivity. Qed.

Lemma shift_snoc c l j : shift (mkStack c (l ++ [j])) = Some (j, mkStack c l).
Proof.
  unfold shift, removeEntry. rewrite Back_snoc. simpl lst.
  rewrite nth_error_last, remove_at_last. reflexivity.
Qed.

Lemma shift_nil c : shift (mkStack c []) = None.
Proof. reflexivity. Qed.

Lemma bottom_snoc c l j : bottom (mkStack c (l ++ [j])) = Some j.
Proof.
  unfold bottom, Len. rewrite Back_snoc. simpl lst.
  destruct (Z.eqb_spec (Z.of_nat (length (l ++ [j]))) 0) as [E | _].
  - rewrite length_app in E. simpl in E. lia.
  - apply (nth_error_last l j).
Qed.

Lemma bottom_nil c : bottom (mkStack c []) = None.
Proof. reflexivity. Qed.

Lemma pop_cons c j l : pop (mkStack c (j :: l)) = Some (j, mkStack c l).
Proof. reflexivity. Qed.

Lemma pop_nil c : pop (mkStack c []) = None.
Proof. reflexivity. Qed.

Lemma empty_nil c : empty (mkStack c []) = true.
Proof. reflexivity. Qed.

Lemma empty_cons c j l : empty (mkStack c (j :: l)) = false.
Proof. unfold empty, Len. simpl lst. simpl length. apply Z.eqb_neq. lia. Qed.

Lemma empty_snoc c l j : empty (mkStack c (l ++ [j])) = false.
Proof. destruct l; apply empty_cons. Qed.

Lemma empty_true_iff st : empty st = true <-> lst st = [].
Proof.
  destruct st as [c [| j l]]; simpl.
  - rewrite empty_nil. tauto.
  - rewrite empty_cons. split; discriminate.
Qed.

Lemma stack_eta st : st = mkStack (cap st) (lst st).
Proof. destruct st; reflexivity. Qed.

Lemma lst_pushes js st : lst (fold_left push js st) = rev js ++ lst st.
Proof.
  revert st. induction js as [| j js IH]; intros st; simpl.
  - reflexivity.
  - rewrite IH. simpl. rewrite <- app_assoc. reflexivity.
Qed.

Lemma cap_pushes js st : cap (fold_left push js st) = cap st.
Proof.
  revert st. induction js as [| j js IH]; intros st; simpl; [reflexivity |].
  rewrite IH. reflexivity.
Qed.

(** [rejectQueued] ends with an empty stack, having sent [ErrClosed] to
    every job, the oldest first. *)
Lemma rejectQueued_loop_spec n c l :
  (length l <= n)%nat ->
  rejectQueued_loop n (mkStack c l) = Some (mkStack c [], notify_all ErrClosed (rev l)).
Proof.
  revert l. induction n as [| n IH]; intros l Hn.
  - destruct l; [reflexivity | simpl in Hn; lia].
  - destruct (snoc_cases l) as [-> | [l' [j ->]]].
    + reflexivity.
    + cbn [rejectQueued_loop]. rewrite empty_snoc, shift_snoc.
      rewrite length_app in Hn. simpl in Hn.
      rewrite IH by lia. rewrite rev_app_distr. reflexivity.
Qed.

Lemma rejectQueued_spec s :
  rejectQueued s =
    Some (set_stk s (mkStack (cap (stk s)) []), notify_all ErrClosed (rev (lst (stk s)))).
Proof.
  unfold rejectQueued. rewrite (stack_eta (stk s)) at 2.
  rewrite rejectQueued_loop_spec by (simpl; lia). reflexivity.
Qed.

(** ** What each case of the loop does *)

Lemma With_options o : options (With o) = normalize o.
Proof. unfold With, normalize. destruct (MaxConcurrency o <=? 0); reflexivity. Qed.

Lemma normalize_pos o : 1 <= MaxConcurrency (normalize o).
Proof.
  unfold normalize. destruct (Z.leb_spec (MaxConcurrency o) 0); simpl; lia.
Qed.

Lemma normalize_in_int o : opts_in_int o -> opts_in_int (normalize o).
Proof.
  unfold opts_in_int, normalize, in_int, min_int, max_int. intros [H1 H2].
  destruct (MaxConcurrency o <=? 0); simpl; lia.
Qed.

Lemma normalize_rest o :
  MaxStackSize (normalize o) = MaxStackSize o /\
  Timeout (normalize o) = Timeout o /\
  CloseTimeout (normalize o) = CloseTimeout o.
Proof. unfold normalize. destruct (MaxConcurrency o <=? 0); simpl; auto. Qed.

Lemma full_true st :
  full st = true -> 0 < cap st /\ Len st = cap st /\ exists l j, lst st = l ++ [j].
Proof.
  unfold full. intros H. apply andb_true_iff in H. destruct H as [H1 H2].
  apply Z.gtb_lt in H1. apply Z.eqb_eq in H2. repeat split; try lia.
  destruct (snoc_cases (lst st)) as [E | [l [j E]]]; eauto.
  unfold Len in H2. rewrite E in H2. simpl in H2. lia.
Qed.

Lemma full_false st : full st = false -> cap st <= 0 \/ Len st <> cap st.
Proof.
  unfold full. intros H. apply andb_false_iff in H. destruct H as [H | H].
  - left. destruct (Z.gtb_spec (cap st) 0); [discriminate | lia].
  - right. apply Z.eqb_neq. exact H.
Qed.

Lemma on_req_total s j : exists s' out, on_req s j = Some (s', out) /\ req_case s j s' out.
Proof.
  unfold on_req.
  destruct (closing s) eqn:Ec.
  { do 2 eexists. split; [reflexivity | now constructor]. }
  destruct (Z.ltb_spec (busy s) (MaxConcurrency (options s))) as [Hb | Hb].
  { do 2 eexists. split; [reflexivity | now constructor]. }
  destruct (full (stk s)) eqn:Ef.
  - destruct (full_true _ Ef) as (_ & _ & l & o & El).
    rewrite (stack_eta (stk s)), El, shift_snoc.
    do 2 eexists. split; [reflexivity |].
    unfold push. cbn [cap lst]. eapply req_displace; eauto.
  - do 2 eexists. split; [reflexivity |]. now constructor.
Qed.

Lemma on_req_case s j s' out : on_req s j = Some (s', out) -> req_case s j s' out.
Proof.
  intros H. destruct (on_req_total s j) as (s1 & o1 & E & C).
  rewrite E in H. injection H as <- <-. exact C.
Qed.

Lemma on_done_spec s :
  on_done s =
    Some (if drained (fst (done_next s)) then close_hasQuit (fst (done_next s))
          else fst (done_next s),
          snd (done_next s)).
Proof.
  destruct s as [o [c l] cl b hq ct].
  unfold on_done, done_next, drained. cbn [stk set_busy busy lst cap].
  destruct l as [| j rest].
  - rewrite empty_nil. cbn.
    destruct (cl && (decr b =? 0)); reflexivity.
  - rewrite empty_cons. cbn [negb]. rewrite pop_cons. cbn.
    destruct (cl && (incr (decr b) =? 0) && empty (mkStack c rest)); reflexivity.
Qed.

Lemma on_timeout_spec s s' out :
  on_timeout s = Some (s', out) ->
  exists rest oldest,
    lst (stk s) = rest ++ [oldest] /\ timeout oldest = true /\
    s' = set_stk s (mkStack (cap (stk s)) rest) /\
    out = [Notify (notify oldest) (Some ErrTimeout)].
Proof.
  unfold on_timeout. rewrite (stack_eta (stk s)).
  destruct (snoc_cases (lst (stk s))) as [-> | [l [j ->]]].
  - rewrite bottom_nil. discriminate.
  - rewrite bottom_snoc, shift_snoc. destruct (timeout j) eqn:Et; [| discriminate].
    intros H. injection H as <- <-. exists l, j. cbn [cap lst]. auto.
Qed.

Lemma on_timeout_ready s rest oldest :
  lst (stk s) = rest ++ [oldest] -> timeout oldest = true ->
  on_timeout s =
    Some (set_stk s (mkStack (cap (stk s)) rest), [Notify (notify oldest) (Some ErrTimeout)]).
Proof.
  intros El Et. unfold on_timeout. rewrite (stack_eta (stk s)), El.
  rewrite bottom_snoc, shift_snoc, Et. reflexivity.
Qed.

Lemma on_quit_forced s : on_quit s true = Some (rejected s).
Proof. unfold on_quit. rewrite rejectQueued_spec. reflexivity. Qed.

Lemma on_closeTimeout_spec s :
  on_closeTimeout s = if closeTimeout s then Some (rejected s) else None.
Proof.
  unfold on_closeTimeout. rewrite rejectQueued_spec.
  destruct (closeTimeout s); reflexivity.
Qed.

Lemma on_quit_graceful s :
  on_quit s false =
    Some (if (busy s =? 0) && empty (stk s) then close_hasQuit (set_closing s true)
          else if CloseTimeout (options s) >? 0
               then set_closeTimeout (set_closing s true) true
               else set_closing s true,
          []).
Proof.
  unfold on_quit. cbn [set_closing busy stk options].
  destruct ((busy s =? 0) && empty (stk s)); [reflexivity |].
  destruct (CloseTimeout (options s) >? 0); reflexivity.
Qed.

(** ** One call, seen from the loop *)

Lemma step_running w c :
  hasQuit (queue w) = false ->
  step w c =
    match run (queue w) (event_of w c) with
    | None => None
    | Some (s', out) => Some (taken w c s' out)
    end.
Proof.
  intros Hq.
  destruct c; cbn [step event_of]; unfold Wait, done_func, StatusCall, Close, CloseForced,
    quit_call, by_call, by_loop; rewrite ?Hq;
    match goal with |- context [run ?s ?e] => destruct (run s e) as [[s' out] |] end;
    reflexivity.
Qed.

Lemma step_quit w c :
  hasQuit (queue w) = true ->
  step w c = if is_timer c then None else Some (untaken w c).
Proof.
  intros Hq.
  destruct c; cbn [step is_timer]; unfold Wait, done_func, StatusCall, Close, CloseForced,
    quit_call, by_call, by_loop, run, untaken; rewrite ?Hq; cbn; rewrite ?app_nil_r;
    reflexivity.
Qed.

(** Induction over a run, one call at a time. *)
Lemma exec_app w cs cs' :
  exec w (cs ++ cs') = match exec w cs with None => None | Some w' => exec w' cs' end.
Proof.
  revert w. induction cs as [| c cs IH]; intros w; simpl; [reflexivity |].
  destruct (step w c); [apply IH | reflexivity].
Qed.

Lemma exec_invariant (P : system -> Prop) :
  (forall w c w', P w -> step w c = Some w' -> P w') ->
  forall cs w w', P w -> exec w cs = Some w' -> P w'.
Proof.
  intros Hstep cs. induction cs as [| c cs IH]; intros w w' HP He; simpl in He.
  - injection He as <-. exact HP.
  - destruct (step w c) as [w1 |] eqn:Es; [| discriminate]. eauto.
Qed.

Lemma exec_once_exec w cs w' : exec_once w cs = Some w' -> exec w cs = Some w'.
Proof.
  revert w. induction cs as [| c cs IH]; intros w H; simpl in *; [exact H |].
  destruct (once w c); [| discriminate].
  destruct (step w c); [auto | discriminate].
Qed.

Lemma exec_once_invariant (P : system -> Prop) :
  (forall w c w', P w -> once w c = true -> step w c = Some w' -> P w') ->
  forall cs w w', P w -> exec_once w cs = Some w' -> P w'.
Proof.
  intros Hstep cs. induction cs as [| c cs IH]; intros w w' HP He; simpl in He.
  - injection He as <-. exact HP.
  - destruct (once w c) eqn:Eo; [| discriminate].
    destruct (step w c) as [w1 |] eqn:Es; [| discriminate]. eauto.
Qed.

(** A step of the system is a step of the loop, or leaves the queue alone. *)
Lemma step_cases w c w' :
  step w c = Some w' ->
  (hasQuit (queue w) = true /\ w' = untaken w c) \/
  (hasQuit (queue w) = false /\
   exists s' out, run (queue w) (event_of w c) = Some (s', out) /\ w' = taken w c s' out).
Proof.
  intros H. destruct (hasQuit (queue w)) eqn:Hq.
  - left. rewrite step_quit in H by exact Hq.
    destruct (is_timer c); [discriminate |]. injection H as <-. auto.
  - right. rewrite step_running in H by exact Hq.
    destruct (run (queue w) (event_of w c)) as [[s' out] |]; [| discriminate].
    injection H as <-. eauto.
Qed.

(** *** The frame *)

Lemma run_frame s ev s' out :
  run s ev = Some (s', out) ->
  options s' = options s /\ cap (stk s') = cap (stk s).
Proof.
  unfold run. destruct (hasQuit s); [discriminate |].
  destruct ev as [j | | | | forced |].
  - intros H. apply on_req_case in H. destruct H; auto.
  - rewrite on_done_spec. intros H. injection H as <- _.
    unfold done_next. destruct (lst (stk s)); cbn [fst];
      match goal with |- context [if ?b then _ else _] => destruct b end; auto.
  - intros H. apply on_timeout_spec in H. destruct H as (r & o & _ & _ & -> & _). auto.
  - unfold on_status. intros H. injection H as <- _. auto.
  - destruct forced.
    + rewrite on_quit_forced. intros H. injection H as <- _. auto.
    + rewrite on_quit_graceful. intros H. injection H as <- _.
      case_ifs; auto.
  - rewrite on_closeTimeout_spec. destruct (closeTimeout s); [| discriminate].
    intros H. injection H as <- _. auto.
Qed.

Lemma inv_frame_start o : inv_frame o (start o).
Proof.
  split; cbn [start queue].
  - apply With_options.
  - unfold With. cbn. destruct (MaxConcurrency o <=? 0); reflexivity.
Qed.

Lemma inv_frame_step o w c w' : inv_frame o w -> step w c = Some w' -> inv_frame o w'.
Proof.
  intros [Ho Hc] Hs. destruct (step_cases _ _ _ Hs) as [[_ ->] | [_ (s' & out & Hr & ->)]].
  - split; assumption.
  - destruct (run_frame _ _ _ _ Hr) as [E1 E2].
    split; cbn [taken queue]; congruence.
Qed.

Lemma inv_frame_exec o cs w : exec (start o) cs = Some w -> inv_frame o w.
Proof.
  apply (exec_invariant (inv_frame o)).
  - intros. eapply inv_frame_step; eauto.
  - apply inv_frame_start.
Qed.

Lemma run_loop_case s ev s' out :
  run s ev = Some (s', out) -> hasQuit s = false /\ loop_case s ev s' out.
Proof.
  unfold run. destruct (hasQuit s); [discriminate |]. intros H. split; [reflexivity |].
  destruct ev as [j | | | | forced |].
  - constructor. apply on_req_case. exact H.
  - rewrite on_done_spec in H. injection H as <- <-.
    unfold done_next. destruct (lst (stk s)) as [| j rest] eqn:El; cbn [fst snd].
    + apply lc_done_idle. exact El.
    + apply lc_done_next. exact El.
  - apply on_timeout_spec in H. destruct H as (rest & oldest & El & Et & -> & ->).
    now apply lc_timeout.
  - unfold on_status in H. injection H as <- <-. constructor.
  - destruct forced.
    + rewrite on_quit_forced in H. injection H as <- <-. constructor.
    + rewrite on_quit_graceful in H. injection H as <- <-. constructor.
  - rewrite on_closeTimeout_spec in H. destruct (closeTimeout s) eqn:Ec; [| discriminate].
    injection H as <- <-. now constructor.
Qed.

Lemma step_loop_case w c w' :
  step w c = Some w' ->
  (hasQuit (queue w) = true /\ w' = untaken w c) \/
  (hasQuit (queue w) = false /\
   exists s' out, loop_case (queue w) (event_of w c) s' out /\ w' = taken w c s' out).
Proof.
  intros H. destruct (step_cases _ _ _ H) as [? | [Hq (s' & out & Hr & ->)]]; [auto |].
  right. split; [exact Hq |]. apply run_loop_case in Hr. destruct Hr. eauto.
Qed.

(** *** The capacity *)

Lemma Len_mk c l : Len (mkStack c l) = Z.of_nat (length l).
Proof. reflexivity. Qed.

Lemma inv_bound_step w c w' : inv_bound w -> step w c = Some w' -> inv_bound w'.
Proof.
  unfold inv_bound. intros Hb Hs.
  destruct (step_loop_case _ _ _ Hs) as [[_ ->] | [_ (s' & out & Hc & ->)]];
    [exact Hb |].
  cbn [taken queue]. clear Hs. unfold Len in *.
  destruct Hc as [j s' out Hr | El | j rest El | rest oldest El Et | | | | Ec].
  - destruct Hr as [ | | rest oldest _ _ Hf El | _ _ Hf ]; cbn [set_busy set_stk stk cap lst];
      try exact Hb.
    + destruct (full_true _ Hf) as (Hpos & Hlen & _). unfold Len in Hlen.
      rewrite El, length_app in Hlen. simpl in *. lia.
    + intros Hpos. specialize (Hb Hpos).
      destruct (full_false _ Hf) as [? | Hne]; [lia |]. unfold Len in Hne.
      simpl length. lia.
  - unfold finish. destruct (drained _); cbn; exact Hb.
  - unfold finish. destruct (drained _); cbn [close_hasQuit set_stk set_busy stk cap lst];
      intros Hpos; specialize (Hb Hpos); rewrite El in Hb; simpl in Hb; lia.
  - cbn [set_stk stk cap lst]. intros Hpos. specialize (Hb Hpos).
    rewrite El, length_app in Hb. simpl in Hb. lia.
  - exact Hb.
  - cbn. lia.
  - unfold graceful.
    case_ifs; cbn; exact Hb.
  - cbn. lia.
Qed.

Lemma inv_bound_start o : inv_bound (start o).
Proof.
  unfold inv_bound, start, With, Len. cbn.
  destruct (MaxConcurrency o <=? 0); cbn; lia.
Qed.

Lemma inv_bound_exec o cs w : exec (start o) cs = Some w -> inv_bound w.
Proof.
  apply (exec_invariant inv_bound).
  - intros. eapply inv_bound_step; eauto.
  - apply inv_bound_start.
Qed.

(** *** The counter and the flags *)

Lemma drained_true s :
  drained s = true -> closing s = true /\ busy s = 0 /\ lst (stk s) = [].
Proof.
  unfold drained. intros H. apply andb_true_iff in H. destruct H as [H H3].
  apply andb_true_iff in H. destruct H as [H1 H2].
  apply Z.eqb_eq in H2. apply empty_true_iff in H3. auto.
Qed.

Lemma drained_false s :
  drained s = false -> closing s = true -> ~ (busy s = 0 /\ lst (stk s) = []).
Proof.
  unfold drained. intros H Hc [Hb He]. rewrite Hc, Hb in H.
  apply empty_true_iff in He. rewrite He in H. discriminate.
Qed.

Lemma idle_true s :
  (busy s =? 0) && empty (stk s) = true <-> busy s = 0 /\ lst (stk s) = [].
Proof.
  rewrite andb_true_iff, Z.eqb_eq, empty_true_iff. tauto.
Qed.

Lemma inv_busy_finish s :
  hasQuit s = false ->
  in_int (busy s) ->
  (lst (stk s) <> [] -> MaxConcurrency (options s) <= busy s) ->
  closeTimeout s = closing s && (CloseTimeout (options s) >? 0) ->
  forall w', queue w' = finish s -> inv_busy w'.
Proof.
  intros Hq Hi Hs Ht w' E. unfold finish in E.
  destruct (drained s) eqn:Ed.
  - destruct (drained_true _ Ed) as (Hc & Hb & He).
    split; rewrite E; cbn [close_hasQuit busy stk hasQuit options closing closeTimeout];
      auto; discriminate.
  - split; rewrite E; auto.
    + congruence.
    + intros _. apply drained_false. exact Ed.
Qed.

Lemma inv_busy_step w c w' :
  1 <= MaxConcurrency (options (queue w)) ->
  inv_busy w -> step w c = Some w' -> inv_busy w'.
Proof.
  intros Hmax [Hi Hs He Hc Ht] Hstep.
  destruct (step_loop_case _ _ _ Hstep) as [[_ ->] | [Hq (s' & out & Hcase & ->)]];
    [split; assumption |].
  clear Hstep. specialize (Hc Hq). specialize (Ht Hq).
  destruct Hcase as [j s' out Hr | El | j rest El | rest oldest El Et | | | | Ec].
  - destruct Hr as [ Hcl | Hcl Hlt | rest oldest Hcl Hge Hf El | Hcl Hge Hf ].
    + split; cbn [taken queue]; auto.
    + split; cbn [taken queue set_busy busy stk options hasQuit closing closeTimeout]; auto.
      * apply wrap_in_int.
      * intros Hne. specialize (Hs Hne). lia.
      * congruence.
    + split; cbn [taken queue set_stk busy stk options hasQuit closing closeTimeout lst];
        auto; congruence.
    + split; cbn [taken queue set_stk busy stk options hasQuit closing closeTimeout lst];
        auto; congruence.
  - eapply inv_busy_finish with (s := set_busy (queue w) (decr (busy (queue w))));
      cbn [set_busy busy stk options hasQuit closing closeTimeout]; auto.
    + apply wrap_in_int.
    + intros Hne. contradiction.
  - eapply inv_busy_finish
      with (s := set_stk (set_busy (queue w) (incr (decr (busy (queue w)))))
                   (mkStack (cap (stk (queue w))) rest));
      cbn [set_stk set_busy busy stk options hasQuit closing closeTimeout lst]; auto.
    + apply wrap_in_int.
    + intros _. rewrite incr_decr by exact Hi. apply Hs. rewrite El. discriminate.
  - assert (Hge : MaxConcurrency (options (queue w)) <= busy (queue w)).
    { apply Hs. rewrite El. destruct rest; discriminate. }
    split; cbn [taken queue set_stk busy stk options hasQuit closing closeTimeout lst];
      auto; try congruence.
    intros _ _ [Hb _]. lia.
  - split; cbn [taken queue]; auto.
  - split; cbn; auto; try discriminate. 
  - unfold graceful. destruct ((busy (queue w) =? 0) && empty (stk (queue w))) eqn:Eid.
    + apply idle_true in Eid. destruct Eid as [Hb Hl].
      split; cbn; auto; try discriminate.
    + assert (Hn : ~ (busy (queue w) = 0 /\ lst (stk (queue w)) = [])).
      { intros H. apply idle_true in H. congruence. }
      destruct (CloseTimeout (options (queue w)) >? 0) eqn:Ect;
        split; cbn; auto; rewrite ?Ect; auto.
      intros _. rewrite Ht. apply andb_false_r.
  - split; cbn; auto; try discriminate.
Qed.

Lemma inv_busy_start o : inv_busy (start o).
Proof.
  unfold start, With.
  split; cbn; try discriminate; try reflexivity; try contradiction.
  unfold in_int, min_int, max_int. lia.
Qed.

Lemma inv_busy_exec o cs w : exec (start o) cs = Some w -> inv_busy w.
Proof.
  intros He.
  assert (H : inv_frame o w /\ inv_busy w); [| tauto].
  revert He. apply (exec_invariant (fun w => inv_frame o w /\ inv_busy w)).
  - intros w0 c w1 [Hf Hb] Hs. split.
    + eapply inv_frame_step; eauto.
    + eapply inv_busy_step; eauto. destruct Hf as [-> _]. apply normalize_pos.
  - split; [apply inv_frame_start | apply inv_busy_start].
Qed.

(** *** Where the jobs are *)

Lemma values_on_app c a b : values_on c (a ++ b) = values_on c a ++ values_on c b.
Proof.
  induction a as [| [c' r | st] a IH]; simpl; [reflexivity | | exact IH].
  destruct (Nat.eqb c c'); simpl; rewrite IH; reflexivity.
Qed.

Lemma granted_app a b : granted (a ++ b) = (granted a + granted b)%nat.
Proof.
  induction a as [| [c' [e |] | st] a IH]; simpl; lia.
Qed.

Lemma mem_In c l : mem c l = true <-> In c l.
Proof.
  unfold mem. rewrite existsb_exists. split.
  - intros (x & Hx & E). apply Nat.eqb_eq in E. subst. exact Hx.
  - intros H. exists c. split; [exact H | apply Nat.eqb_refl].
Qed.

Lemma mem_false c l : mem c l = false <-> ~ In c l.
Proof.
  rewrite <- mem_In. destruct (mem c l); split; congruence.
Qed.

Lemma mem_app c a b : mem c (a ++ b) = mem c a || mem c b.
Proof. apply existsb_app. Qed.

Lemma sorted_NoDup (l : list chan) :
  StronglySorted (fun a b => (b < a)%nat) l -> NoDup l.
Proof.
  induction 1 as [| a l _ IH Hall]; constructor; [| exact IH].
  intros Hin. rewrite Forall_forall in Hall. specialize (Hall _ Hin). lia.
Qed.

Lemma sorted_remove (A B : list chan) x :
  StronglySorted (fun a b => (b < a)%nat) (A ++ x :: B) ->
  StronglySorted (fun a b => (b < a)%nat) (A ++ B).
Proof.
  induction A as [| a A IH]; simpl; intros H.
  - inversion H; assumption.
  - inversion H as [| ? ? Hs Hall]; subst. constructor; [auto |].
    rewrite Forall_forall in *. intros y Hy. apply Hall.
    apply in_app_or in Hy. apply in_or_app. simpl. tauto.
Qed.

Lemma jobs_made_more Q R m out : jobs_ok Q R m out -> jobs_ok Q R (S m) out.
Proof.
  intros [H1 H2 H3 H4]. split; auto. intros c Hc. specialize (H3 _ Hc). lia.
Qed.

Lemma jobs_reply Q R m out st : jobs_ok Q R m out -> jobs_ok Q R m (out ++ [Reply st]).
Proof.
  intros [H1 H2 H3 H4]. split; auto. intros c.
  rewrite values_on_app. simpl. rewrite app_nil_r. apply H4.
Qed.

Lemma jobs_fresh Q R m out :
  jobs_ok Q R m out -> mem m R = false /\ mem m Q = false.
Proof.
  intros [H1 H2 H3 H4].
  assert (Hr : ~ In m R) by (intros Hin; specialize (H3 _ Hin); lia).
  split; apply mem_false; auto.
Qed.

(** A job comes in and is answered at once. *)
Lemma jobs_answered Q R m out r :
  jobs_ok Q R m out -> jobs_ok Q (m :: R) (S m) (out ++ [Notify m r]).
Proof.
  intros H. destruct (jobs_fresh _ _ _ _ H) as [Hr Hq]. destruct H as [H1 H2 H3 H4].
  split; auto.
  - intros c Hc. right. auto.
  - intros c [<- | Hc]; [lia |]. specialize (H3 _ Hc). lia.
  - intros c. rewrite values_on_app, length_app, H4. cbn [values_on mem existsb].
    fold (mem c R). destruct (Nat.eqb_spec c m) as [-> | Hne]; cbn.
    + rewrite Hr, Hq. reflexivity.
    + lia.
Qed.

(** A job comes in and is put on the stack. *)
Lemma jobs_pushed Q R m out :
  jobs_ok Q R m out -> jobs_ok (m :: Q) (m :: R) (S m) out.
Proof.
  intros H. destruct (jobs_fresh _ _ _ _ H) as [Hr Hq]. destruct H as [H1 H2 H3 H4].
  split.
  - constructor; [exact H1 |]. rewrite Forall_forall. intros c Hc. auto.
  - intros c [<- | Hc]; [left; reflexivity | right; auto].
  - intros c [<- | Hc]; [lia |]. specialize (H3 _ Hc). lia.
  - intros c. rewrite H4. cbn [mem existsb]. fold (mem c R) (mem c Q).
    destruct (Nat.eqb_spec c m) as [-> | Hne]; cbn.
    + rewrite Hr. reflexivity.
    + reflexivity.
Qed.

(** A job leaves the stack, from either end, and is sent a value. *)
Lemma jobs_removed A B x R m out r :
  jobs_ok (A ++ x :: B) R m out -> jobs_ok (A ++ B) R m (out ++ [Notify x r]).
Proof.
  intros [H1 H2 H3 H4].
  pose proof (NoDup_remove_2 _ _ _ (sorted_NoDup _ H1)) as Hx.
  split; auto.
  - eapply sorted_remove; eauto.
  - intros c Hc. apply H2. apply in_app_or in Hc. apply in_or_app. simpl. tauto.
  - intros c. rewrite values_on_app, length_app, H4. cbn [values_on].
    rewrite !mem_app. cbn [mem existsb]. fold (mem c B).
    destruct (Nat.eqb_spec c x) as [-> | Hne]; cbn.
    + assert (Hr : mem x R = true).
      { apply mem_In. apply H2. apply in_or_app. simpl. tauto. }
      assert (Hab : mem x A || mem x B = false).
      { rewrite <- mem_app. apply mem_false. exact Hx. }
      rewrite Hr, Hab, orb_true_r. reflexivity.
    + lia.
Qed.

Lemma jobs_removed_last Q x R m out r :
  jobs_ok (Q ++ [x]) R m out -> jobs_ok Q R m (out ++ [Notify x r]).
Proof.
  intros H. rewrite <- (app_nil_r Q). apply jobs_removed. exact H.
Qed.

Lemma jobs_removed_first Q x R m out r :
  jobs_ok (x :: Q) R m out -> jobs_ok Q R m (out ++ [Notify x r]).
Proof. apply (jobs_removed [] Q). Qed.

(** All the jobs leave the stack, the oldest first. *)
Lemma jobs_rejected e l R m out :
  jobs_ok (map notify l) R m out ->
  jobs_ok [] R m (out ++ notify_all e (rev l)).
Proof.
  revert out. induction l as [| j l IH] using rev_ind; intros out H.
  - simpl. rewrite app_nil_r. exact H.
  - rewrite rev_app_distr. cbn [rev app notify_all map].
    rewrite map_app in H. cbn [map] in H.
    apply (jobs_removed_last _ _ _ _ _ (Some e)) in H. apply IH in H.
    rewrite <- app_assoc in H. exact H.
Qed.

Lemma lst_finish s : lst (stk (finish s)) = lst (stk s).
Proof. unfold finish. destruct (drained s); reflexivity. Qed.

Lemma lst_graceful s : lst (stk (graceful s)) = lst (stk s).
Proof.
  unfold graceful.
  case_ifs; reflexivity.
Qed.

Lemma inv_jobs_step w c w' : inv_jobs w -> step w c = Some w' -> inv_jobs w'.
Proof.
  unfold inv_jobs, queued. intros H Hstep.
  destruct (step_loop_case _ _ _ Hstep) as [[_ ->] | [Hq (s' & out & Hcase & ->)]].
  { cbn [untaken queue made sent reqs]. destruct c; auto using jobs_made_more. }
  clear Hstep.
  remember (event_of w c) as ev eqn:Eev.
  destruct Hcase as [j s' out Hr | El | j rest El | rest oldest El Et | | | | Ec];
    destruct c; try discriminate Eev; cbn [taken queue made sent reqs].
  - cbn [event_of] in Eev. injection Eev as ->.
    destruct Hr as [ Hcl | Hcl Hlt | rest oldest Hcl Hge Hf El | Hcl Hge Hf ];
      cbn [set_busy set_stk stk lst newJob notify map].
    + apply jobs_answered. exact H.
    + apply jobs_answered. exact H.
    + rewrite El, map_app in H. cbn [map] in H.
      apply (jobs_removed_last _ _ _ _ _ (Some ErrStackFull)) in H.
      apply jobs_pushed. exact H.
    + rewrite app_nil_r. apply jobs_pushed. exact H.
  - rewrite lst_finish, app_nil_r. exact H.
  - rewrite lst_finish. cbn [set_stk stk lst]. rewrite El in H. cbn [map] in H.
    apply jobs_removed_first. exact H.
  - cbn [set_stk stk lst]. rewrite El, map_app in H. cbn [map] in H.
    apply jobs_removed_last. exact H.
  - apply jobs_reply. exact H.
  - cbn [rejected fst snd close_hasQuit set_stk stk lst map].
    apply jobs_rejected. exact H.
  - rewrite lst_graceful, app_nil_r. exact H.
  - cbn [rejected fst snd close_hasQuit set_stk stk lst map].
    apply jobs_rejected. exact H.
Qed.

Lemma inv_jobs_start o : inv_jobs (start o).
Proof.
  unfold inv_jobs, queued, start, With. cbn. split; cbn.
  - constructor.
  - contradiction.
  - contradiction.
  - reflexivity.
Qed.

Lemma inv_jobs_exec o cs w : exec (start o) cs = Some w -> inv_jobs w.
Proof.
  apply (exec_invariant inv_jobs).
  - intros. eapply inv_jobs_step; eauto.
  - apply inv_jobs_start.
Qed.

(** *** Every done function called at most once *)

Lemma busy_finish s : busy (finish s) = busy s /\ options (finish s) = options s.
Proof. unfold finish. destruct (drained s); auto. Qed.

Lemma busy_graceful s : busy (graceful s) = busy s /\ options (graceful s) = options s.
Proof.
  unfold graceful.
  case_ifs; auto.
Qed.

Lemma granted_notify_all e l : granted (notify_all e l) = 0%nat.
Proof. induction l; simpl; auto. Qed.

(** The counter moves with the jobs let in and the tokens received. *)
Lemma loop_case_count s ev s' out :
  loop_case s ev s' out ->
  in_int (busy s) -> in_int (MaxConcurrency (options s)) ->
  (ev = EvDone -> 0 < busy s) ->
  busy s' = busy s + Z.of_nat (granted out) - (match ev with EvDone => 1 | _ => 0 end).
Proof.
  intros Hcase Hi Hmax Hpos.
  destruct Hcase as [j s' out Hr | El | j rest El | rest oldest El Et | | | | Ec].
  - destruct Hr as [ Hcl | Hcl Hlt | rest oldest Hcl Hge Hf El | Hcl Hge Hf ];
      cbn [set_busy set_stk busy granted]; try lia.
    rewrite (incr_below _ _ Hi Hmax Hlt). lia.
  - specialize (Hpos eq_refl). destruct (busy_finish (set_busy s (decr (busy s)))) as [-> _].
    cbn [set_busy busy granted]. rewrite decr_above; [lia | exact Hi |].
    unfold min_int. lia.
  - match goal with |- busy (finish ?x) = _ => destruct (busy_finish x) as [-> _] end.
    cbn [set_stk set_busy busy granted]. rewrite incr_decr by exact Hi. lia.
  - cbn [set_stk busy granted]. lia.
  - cbn [granted]. lia.
  - cbn [rejected fst snd close_hasQuit set_stk busy]. rewrite granted_notify_all. lia.
  - destruct (busy_graceful s) as [-> _]. cbn [granted]. lia.
  - cbn [rejected fst snd close_hasQuit set_stk busy]. rewrite granted_notify_all. lia.
Qed.

Lemma loop_case_max s ev s' out :
  loop_case s ev s' out ->
  in_int (busy s) -> in_int (MaxConcurrency (options s)) ->
  0 <= busy s <= MaxConcurrency (options s) ->
  busy s' <= MaxConcurrency (options s).
Proof.
  intros Hcase Hi Hmax Hb.
  destruct Hcase as [j s' out Hr | El | j rest El | rest oldest El Et | | | | Ec].
  - destruct Hr as [ Hcl | Hcl Hlt | rest oldest Hcl Hge Hf El | Hcl Hge Hf ];
      cbn [set_busy set_stk busy]; try lia.
    rewrite (incr_below _ _ Hi Hmax Hlt). lia.
  - destruct (busy_finish (set_busy s (decr (busy s)))) as [-> _].
    cbn [set_busy busy]. unfold decr. pose proof (wrap_in_int (busy s - 1)) as Hw.
    destruct (Z.eq_dec (busy s) min_int) as [E | E].
    + unfold min_int in E. lia.
    + rewrite wrap_id; [lia |]. unfold in_int in *. lia.
  - match goal with |- busy (finish ?x) <= _ => destruct (busy_finish x) as [-> _] end.
    cbn [set_stk set_busy busy]. rewrite incr_decr by exact Hi. lia.
  - cbn [set_stk busy]. lia.
  - lia.
  - cbn [rejected fst snd close_hasQuit set_stk busy]. lia.
  - destruct (busy_graceful s) as [-> _]. lia.
  - cbn [rejected fst snd close_hasQuit set_stk busy]. lia.
Qed.

Lemma inv_once_step w c w' :
  in_int (MaxConcurrency (options (queue w))) ->
  inv_busy w -> inv_once w -> once w c = true -> step w c = Some w' -> inv_once w'.
Proof.
  intros Hmax [Hi Hs _ _ _] [Hn Ht Hm] Ho Hstep.
  destruct (step_cases _ _ _ Hstep) as [[_ ->] | [Hq (s' & out & Hr & ->)]].
  { split; cbn [untaken queue sent tokens]; auto. }
  destruct (run_frame _ _ _ _ Hr) as [Eo _].
  apply run_loop_case in Hr. destruct Hr as [_ Hcase].
  assert (Hpos : event_of w c = EvDone -> 0 < busy (queue w)).
  { intros E. destruct c; try discriminate E. cbn [once] in Ho.
    apply Nat.ltb_lt in Ho. lia. }
  pose proof (loop_case_count _ _ _ _ Hcase Hi Hmax Hpos) as Hcount.
  assert (Hb : 0 <= busy (queue w) <= MaxConcurrency (options (queue w))) by lia.
  pose proof (loop_case_max _ _ _ _ Hcase Hi Hmax Hb) as Hle.
  split; cbn [taken queue sent tokens]; rewrite ?granted_app, ?Eo; try exact Hle.
  - rewrite Hcount. destruct c; cbn [event_of]; lia.
  - destruct c; cbn [once] in Ho; try apply Nat.ltb_lt in Ho; lia.
Qed.

Lemma inv_once_exec o cs w :
  opts_in_int o -> exec_once (start o) cs = Some w -> inv_once w.
Proof.
  intros Hint He.
  assert (H : (inv_frame o w /\ inv_busy w) /\ inv_once w); [| tauto].
  revert He.
  apply (exec_once_invariant (fun w => (inv_frame o w /\ inv_busy w) /\ inv_once w)).
  - intros w0 c w1 [[Hf Hb] Ho] Honce Hs. split; [split |].
    + eapply inv_frame_step; eauto.
    + eapply inv_busy_step; eauto. destruct Hf as [-> _]. apply normalize_pos.
    + eapply inv_once_step; eauto. destruct Hf as [-> _].
      apply normalize_in_int. exact Hint.
  - split; [split |]; [apply inv_frame_start | apply inv_busy_start |].
    split; cbn; try lia.
    destruct (MaxConcurrency o <=? 0) eqn:E; cbn; [lia |]. apply Z.leb_gt in E. lia.
Qed.

(** * The claims *)

(** ** Arrivals *)

(** C1: for every arrival taken by the loop exactly one of four rules
    applies, tested in this order: when the queue is closing (or closed) the
    job is sent [ErrClosed] and not put on the stack; else when
    [busy < MaxConcurrency] the counter goes up by one and the job is sent
    [nil]; else when the stack is full its oldest job is taken off and sent
    [ErrStackFull], and then the arriving job is pushed; else the arriving
    job is pushed. *)
Theorem arrival_precedence (s : Stack) (j : job) :
  hasQuit s = false -> in_int (busy s) -> in_int (MaxConcurrency (options s)) ->
  exists s' out,
    run s (EvReq j) = Some (s', out) /\
    (closing s || hasQuit s = true ->
       out = [Notify (notify j) (Some ErrClosed)] /\ s' = s) /\
    (closing s || hasQuit s = false -> busy s < MaxConcurrency (options s) ->
       out = [Notify (notify j) None] /\ s' = set_busy s (busy s + 1)) /\
    (closing s || hasQuit s = false -> MaxConcurrency (options s) <= busy s ->
     full (stk s) = true ->
       exists oldest st',
         bottom (stk s) = Some oldest /\ shift (stk s) = Some (oldest, st') /\
         out = [Notify (notify oldest) (Some ErrStackFull)] /\
         s' = set_stk s (push st' j)) /\
    (closing s || hasQuit s = false -> MaxConcurrency (options s) <= busy s ->
     full (stk s) = false ->
       out = [] /\ s' = set_stk s (push (stk s) j)).
Proof.
  intros Hq Hi Hmax. unfold run. rewrite Hq, orb_false_r.
  destruct (on_req_total s j) as (s' & out & E & C). exists s', out.
  split; [exact E |].
  destruct C as [ Hcl | Hcl Hlt | rest oldest Hcl Hge Hf El | Hcl Hge Hf ];
    repeat split; intros; try congruence; try lia.
  - rewrite (incr_below _ _ Hi Hmax Hlt). reflexivity.
  - exists oldest, (mkStack (cap (stk s)) rest).
    rewrite (stack_eta (stk s)), El, bottom_snoc, shift_snoc. auto.
Qed.

Lemma in_int_small z : -1000 <= z <= 1000 -> in_int z.
Proof. unfold in_int, min_int, max_int. lia. Qed.

Lemma arrival_precedence_witness :
  exists s' out,
    run (With (mkOptions 1 1 0 0)) (EvReq (mkJob 0%nat false)) = Some (s', out) /\
    out = [Notify 0%nat None] /\ busy s' = 1.
Proof.
  destruct (arrival_precedence (With (mkOptions 1 1 0 0)) (mkJob 0%nat false))
    as (s' & out & E & _ & H & _).
  - reflexivity.
  - apply in_int_small. cbn. lia.
  - apply in_int_small. cbn. lia.
  - exists s', out. split; [exact E |].
    destruct H as [-> ->]; [reflexivity | cbn; lia |]. split; reflexivity.
Defined.

(** ** The deadline of the oldest job *)

(** C8: when the timer of the oldest waiting job fires, that job is sent
    [ErrTimeout] and taken off the bottom of the stack, and nothing else
    changes: the counter, the other waiting jobs and their order, the
    options and the flags stay as they were.  The timer can fire whenever
    the loop runs and the oldest job has one. *)
Theorem timeout_frame (s : Stack) :
  (forall s' out,
     run s EvTimeout = Some (s', out) ->
     exists rest oldest,
       lst (stk s) = rest ++ [oldest] /\ bottom (stk s) = Some oldest /\
       out = [Notify (notify oldest) (Some ErrTimeout)] /\
       lst (stk s') = rest /\ cap (stk s') = cap (stk s) /\
       busy s' = busy s /\ options s' = options s /\ closing s' = closing s /\
       hasQuit s' = hasQuit s /\ closeTimeout s' = closeTimeout s) /\
  (forall rest oldest,
     hasQuit s = false -> lst (stk s) = rest ++ [oldest] -> timeout oldest = true ->
     exists s', run s EvTimeout = Some (s', [Notify (notify oldest) (Some ErrTimeout)])).
Proof.
  split.
  - intros s' out H. unfold run in H. destruct (hasQuit s) eqn:Hq; [discriminate |].
    apply on_timeout_spec in H. destruct H as (rest & oldest & El & Et & -> & ->).
    exists rest, oldest. rewrite (stack_eta (stk s)) at 2. rewrite El, bottom_snoc.
    cbn. repeat split; auto.
  - intros rest oldest Hq El Et. unfold run. rewrite Hq.
    rewrite (on_timeout_ready _ _ _ El Et). eauto.
Qed.

(** ** Last in, first out *)

(** C3: a push followed by a pop gives back the pushed job and the stack
    as it was; [shift] and [bottom] work on the job pushed first; and when a
    completion is taken while two or more jobs wait, the job let in is the
    one on top, which came in after every other waiting job, and the others
    keep their places. *)
Theorem lifo_order :
  (forall st j, pop (push st j) = Some (j, st)) /\
  (forall c j js,
     bottom (fold_left push js (push (newStack c) j)) = Some j /\
     shift (fold_left push js (push (newStack c) j)) =
       Some (j, fold_left push js (newStack c))) /\
  (forall o cs w newer older rest,
     exec (start o) cs = Some w -> hasQuit (queue w) = false ->
     lst (stk (queue w)) = newer :: older :: rest ->
     (forall a, In a (older :: rest) -> (notify a < notify newer)%nat) /\
     exists w',
       step w CallDone = Some w' /\
       sent w' = sent w ++ [Notify (notify newer) None] /\
       lst (stk (queue w')) = older :: rest).
Proof.
  split; [| split].
  - intros [c l] j. reflexivity.
  - intros c j js.
    rewrite (stack_eta (fold_left push js (push (newStack c) j))).
    rewrite lst_pushes, cap_pushes. cbn [push newStack lst cap].
    rewrite bottom_snoc, shift_snoc. split; [reflexivity |].
    rewrite (stack_eta (fold_left push js (newStack c))).
    rewrite lst_pushes, cap_pushes. cbn [newStack lst cap]. rewrite app_nil_r.
    reflexivity.
  - intros o cs w newer older rest He Hq El. split.
    + pose proof (inv_jobs_exec _ _ _ He) as [Hs _ _ _]. unfold queued in Hs.
      rewrite El in Hs. cbn [map] in Hs. inversion Hs as [| ? ? _ Hall]; subst.
      rewrite Forall_forall in Hall. intros a Ha. apply Hall.
      apply (in_map notify) in Ha. exact Ha.
    + rewrite step_running by exact Hq. cbn [event_of]. unfold run. rewrite Hq.
      rewrite on_done_spec. unfold done_next. rewrite El. cbn [fst snd].
      eexists. split; [reflexivity |]. cbn [taken sent queue]. split; [reflexivity |].
      match goal with |- context [if ?b then _ else _] => destruct b end; reflexivity.
Qed.

Lemma lifo_order_witness :
  exists w,
    exec (start (mkOptions 1 0 0 0)) [CallWait; CallWait; CallWait] = Some w /\
    exists w',
      step w CallDone = Some w' /\
      sent w' = sent w ++ [Notify 2%nat None] /\
      queued w' = [1%nat].
Proof.
  exists (mkSystem
            (mkQueue (mkOptions 1 0 0 0)
               (mkStack 0 [mkJob 2%nat false; mkJob 1%nat false]) false 1 false false)
            3 [Notify 0%nat None] [2; 1; 0]%nat 0).
  assert (He : exec (start (mkOptions 1 0 0 0)) [CallWait; CallWait; CallWait] =
               Some (mkSystem
                 (mkQueue (mkOptions 1 0 0 0)
                    (mkStack 0 [mkJob 2%nat false; mkJob 1%nat false]) false 1 false false)
                 3 [Notify 0%nat None] [2; 1; 0]%nat 0)) by reflexivity.
  split; [exact He |].
  destruct lifo_order as (_ & _ & H).
  destruct (H _ _ _ (mkJob 2%nat false) (mkJob 1%nat false) [] He eq_refl eq_refl)
    as (_ & w' & Hs & Hsent & Hl).
  exists w'. split; [exact Hs |]. split; [exact Hsent |].
  unfold queued. rewrite Hl. reflexivity.
Defined.

Lemma timeout_frame_witness :
  exists w,
    exec (start (mkOptions 1 0 5 0)) [CallWait; CallWait; CallWait] = Some w /\
    exists s',
      run (queue w) EvTimeout = Some (s', [Notify 1%nat (Some ErrTimeout)]) /\
      map notify (lst (stk s')) = [2%nat] /\ busy s' = 1.
Proof.
  exists (mkSystem
            (mkQueue (mkOptions 1 0 5 0)
               (mkStack 0 [mkJob 2%nat true; mkJob 1%nat true]) false 1 false false)
            3 [Notify 0%nat None] [2; 1; 0]%nat 0).
  split; [reflexivity |]. cbn [queue].
  match goal with |- exists _, run ?s _ = _ /\ _ =>
    destruct (timeout_frame s) as [H1 H2] end.
  destruct (H2 [mkJob 2%nat true] (mkJob 1%nat true) eq_refl eq_refl eq_refl) as [s' Hr].
  destruct (H1 _ _ Hr) as (rest & oldest & El & _ & _ & El' & _ & Hb & _).
  exists s'. split; [exact Hr |].
  apply (f_equal (@removelast _)) in El. rewrite removelast_last in El.
  cbn in El. subst rest. rewrite El', Hb. split; reflexivity.
Defined.

(** ** The capacity of the stack *)

(** C4: with [MaxStackSize > 0], in every state the system reaches the
    stack holds between 0 and [MaxStackSize] jobs, and every further step
    keeps it so; when a job arrives and the stack is full, the oldest job
    is taken off and sent [ErrStackFull] before the new one is pushed: the
    stack holds [MaxStackSize - 1] jobs in between and [MaxStackSize] at
    the end. *)
Theorem capacity_bound (o : Options) (cs : list call) (w : system) :
  0 < MaxStackSize o ->
  exec (start o) cs = Some w ->
  MaxStackSize (options (queue w)) = MaxStackSize o /\
  0 <= Len (stk (queue w)) <= MaxStackSize o /\
  (forall c w', step w c = Some w' -> 0 <= Len (stk (queue w')) <= MaxStackSize o) /\
  (forall j,
     hasQuit (queue w) = false -> closing (queue w) = false ->
     MaxConcurrency (options (queue w)) <= busy (queue w) ->
     full (stk (queue w)) = true ->
     exists oldest st',
       bottom (stk (queue w)) = Some oldest /\
       shift (stk (queue w)) = Some (oldest, st') /\
       Len st' = MaxStackSize o - 1 /\
       Len (push st' j) = MaxStackSize o /\
       run (queue w) (EvReq j) =
         Some (set_stk (queue w) (push st' j),
               [Notify (notify oldest) (Some ErrStackFull)])).
Proof.
  intros Hpos He.
  assert (Hall : forall w, exec (start o) cs = Some w ->
                           0 <= Len (stk (queue w)) <= MaxStackSize o).
  { intros w0 H0. pose proof (inv_bound_exec _ _ _ H0) as Hb.
    destruct (inv_frame_exec _ _ _ H0) as [_ Hc]. unfold inv_bound in Hb.
    rewrite Hc in Hb. split; [unfold Len; lia | auto]. }
  destruct (inv_frame_exec _ _ _ He) as [Hopt Hcap].
  split; [| split; [| split]].
  - rewrite Hopt. apply normalize_rest.
  - apply Hall. exact He.
  - intros c w' Hs.
    assert (He' : exec (start o) (cs ++ [c]) = Some w').
    { rewrite exec_app, He. cbn [exec]. rewrite Hs. reflexivity. }
    pose proof (inv_bound_exec _ _ _ He') as Hb.
    destruct (inv_frame_exec _ _ _ He') as [_ Hc]. unfold inv_bound in Hb.
    rewrite Hc in Hb. split; [unfold Len; lia | auto].
  - intros j Hq Hcl Hge Hf.
    destruct (full_true _ Hf) as (_ & Hlen & rest & oldest & El).
    exists oldest, (mkStack (cap (stk (queue w))) rest).
    rewrite (stack_eta (stk (queue w))) at 1 2. rewrite El, bottom_snoc, shift_snoc.
    unfold Len in *. rewrite El, length_app in Hlen. cbn in Hlen. cbn [push lst cap length].
    repeat split; try lia.
    unfold run, on_req. rewrite Hq, Hcl, Hf.
    destruct (Z.ltb_spec (busy (queue w)) (MaxConcurrency (options (queue w)))); [lia |].
    rewrite (stack_eta (stk (queue w))) at 1. rewrite El, shift_snoc. reflexivity.
Qed.

Lemma capacity_bound_witness :
  exists w,
    exec (start (mkOptions 1 2 0 0)) [CallWait; CallWait; CallWait; CallWait] = Some w /\
    0 <= Len (stk (queue w)) <= 2.
Proof.
  exists (mkSystem
            (mkQueue (mkOptions 1 2 0 0)
               (mkStack 2 [mkJob 3%nat false; mkJob 2%nat false]) false 1 false false)
            4 [Notify 0%nat None; Notify 1%nat (Some ErrStackFull)] [3; 2; 1; 0]%nat 0).
  split; [reflexivity |].
  apply (capacity_bound (mkOptions 1 2 0 0) [CallWait; CallWait; CallWait; CallWait]).
  - cbn. lia.
  - reflexivity.
Defined.

(** ** After the loop has ended *)

(** C7: once [hasQuit] is closed, [Wait] returns [ErrClosed], [Status]
    returns a status with [Closed] set, and a done function does nothing;
    each returns without the loop, which takes no communication any more,
    and leaves the state as it is. *)
Theorem calls_after_quit (s : Stack) :
  hasQuit s = true ->
  (forall c, Wait s c = Some (mkCalled false s [] (Some (Some ErrClosed)))) /\
  (exists st, StatusCall s = Some (mkCalled false s [] (Some st)) /\ Closed st = true) /\
  (forall err, done_func err s = Some (mkCalled false s [] (Some tt))) /\
  (forall ev, run s ev = None).
Proof.
  intros Hq. unfold Wait, StatusCall, done_func, run. rewrite Hq.
  repeat split; eauto. intros [e |]; reflexivity.
Qed.

Lemma calls_after_quit_witness :
  exists w,
    exec (start (mkOptions 1 0 0 0)) [CallWait; CallWait; CallCloseForced] = Some w /\
    Wait (queue w) (made w) = Some (mkCalled false (queue w) [] (Some (Some ErrClosed))) /\
    done_func None (queue w) = Some (mkCalled false (queue w) [] (Some tt)).
Proof.
  exists (mkSystem
            (mkQueue (mkOptions 1 0 0 0) (mkStack 0 []) false 1 true false)
            2 [Notify 0%nat None; Notify 1%nat (Some ErrClosed)] [1; 0]%nat 0).
  split; [reflexivity |]. cbn [queue made].
  match goal with |- Wait ?s _ = _ /\ _ =>
    destruct (calls_after_quit s eq_refl) as (Hw & _ & Hd & _) end.
  split; [apply Hw | apply Hd].
Defined.

(** ** Closing *)

Lemma loop_case_closing s ev s' out :
  loop_case s ev s' out -> closing s = true -> closing s' = true.
Proof.
  intros Hcase Hc.
  destruct Hcase as [j s' out Hr | El | j rest El | rest oldest El Et | | | | Ec];
    try exact Hc.
  - destruct Hr; cbn; congruence.
  - unfold finish. destruct (drained _); exact Hc.
  - unfold finish. destruct (drained _); exact Hc.
  - unfold graceful.
    case_ifs; reflexivity.
Qed.

(** How the loop can end. *)
Lemma loop_case_quit s ev s' out :
  loop_case s ev s' out -> hasQuit s = false -> hasQuit s' = true ->
  (ev = EvDone /\ closing s = true /\ busy s' = 0 /\ lst (stk s') = []) \/
  (ev = EvQuit false /\ busy s = 0 /\ lst (stk s) = [] /\
   busy s' = 0 /\ lst (stk s') = []) \/
  ev = EvQuit true \/ ev = EvCloseTimeout.
Proof.
  intros Hcase Hq Hq'.
  destruct Hcase as [j s' out Hr | El | j rest El | rest oldest El Et | | | | Ec];
    auto; try (cbn in Hq'; congruence).
  - destruct Hr; cbn in Hq'; congruence.
  - left. unfold finish in *. destruct (drained _) eqn:Ed; [| cbn in Hq'; congruence].
    apply drained_true in Ed. cbn in *. tauto.
  - left. unfold finish in *. destruct (drained _) eqn:Ed; [| cbn in Hq'; congruence].
    apply drained_true in Ed. cbn in *. tauto.
  - right. left. unfold graceful in *.
    destruct ((busy s =? 0) && empty (stk s)) eqn:Eid.
    + apply idle_true in Eid. cbn. tauto.
    + destruct (CloseTimeout (options s) >? 0); cbn in Hq'; congruence.
Qed.

Lemma closing_exec cs w w' :
  closing (queue w) = true -> exec w cs = Some w' -> closing (queue w') = true.
Proof.
  apply (exec_invariant (fun w => closing (queue w) = true)).
  intros w0 c w1 Hc Hs.
  destruct (step_loop_case _ _ _ Hs) as [[_ ->] | [_ (s' & out & Hcase & ->)]];
    [exact Hc |].
  cbn [taken queue]. eapply loop_case_closing; eauto.
Qed.

(** Without a forced end, a closing queue that has quit is drained. *)
Lemma graceful_end_exec cs w w' :
  forallb no_forced_end cs = true ->
  closing (queue w) = true ->
  (hasQuit (queue w) = true -> busy (queue w) = 0 /\ lst (stk (queue w)) = []) ->
  exec w cs = Some w' ->
  hasQuit (queue w') = true -> busy (queue w') = 0 /\ lst (stk (queue w')) = [].
Proof.
  revert w. induction cs as [| c cs IH]; intros w Hnf Hc Hd He; simpl in *.
  - injection He as <-. exact Hd.
  - apply andb_true_iff in Hnf. destruct Hnf as [Hn Hnf].
    destruct (step w c) as [w1 |] eqn:Hs; [| discriminate].
    apply (IH w1); auto.
    + eapply (closing_exec [c]); [exact Hc | cbn [exec]; rewrite Hs; reflexivity].
    + destruct (step_loop_case _ _ _ Hs) as [[Hq ->] | [Hq (s' & out & Hcase & ->)]].
      * intros _. apply Hd. exact Hq.
      * cbn [taken queue]. intros Hq'.
        destruct (loop_case_quit _ _ _ _ Hcase Hq Hq')
          as [(_ & _ & ? & ?) | [(_ & _ & _ & ? & ?) | [E | E]]]; auto;
          destruct c; cbn in E, Hn; congruence.
Qed.

(** C6: after a graceful close has been taken, the queue is closing and
    every [Wait] is answered with [ErrClosed], sent by the loop on the
    job's channel while it runs; unless the end is forced,
    the loop has ended exactly when the counter is 0 and the stack empty,
    which happens at the close itself or at a completion; the grace timer is
    set exactly when [CloseTimeout > 0], and when it fires every waiting job
    is sent [ErrClosed] and the loop ends whatever the counter is. *)
Theorem graceful_close (o : Options) (pre post : list call) (w0 w1 w2 : system) :
  exec (start o) pre = Some w0 ->
  hasQuit (queue w0) = false ->
  step w0 CallClose = Some w1 ->
  exec w1 post = Some w2 ->
  closing (queue w2) = true /\
  (exists r,
     Wait (queue w2) (made w2) = Some r /\ ret r = Some (Some ErrClosed) /\
     after r = queue w2 /\
     (hasQuit (queue w2) = false -> outs r = [Notify (made w2) (Some ErrClosed)])) /\
  (forallb no_forced_end post = true ->
     (hasQuit (queue w2) = true <->
      busy (queue w2) = 0 /\ lst (stk (queue w2)) = [])) /\
  (forall c w3,
     hasQuit (queue w2) = false -> step w2 c = Some w3 ->
     hasQuit (queue w3) = true -> no_forced_end c = true -> c = CallDone) /\
  (hasQuit (queue w2) = false -> closeTimeout (queue w2) = (CloseTimeout o >? 0)) /\
  (hasQuit (queue w2) = false -> closeTimeout (queue w2) = true ->
     exists w3, step w2 FireCloseTimeout = Some w3 /\
                hasQuit (queue w3) = true /\ lst (stk (queue w3)) = [] /\
                busy (queue w3) = busy (queue w2) /\
                sent w3 = sent w2 ++ notify_all ErrClosed (rev (lst (stk (queue w2))))).
Proof.
  intros He0 Hq0 Hs1 He2.
  assert (Hreach : exec (start o) (pre ++ CallClose :: post) = Some w2).
  { rewrite exec_app, He0. cbn [exec]. rewrite Hs1. exact He2. }
  pose proof (inv_busy_exec _ _ _ Hreach) as [_ Hslot _ Hcb Htimer].
  destruct (inv_frame_exec _ _ _ Hreach) as [Hopt _].
  assert (Hw1 : closing (queue w1) = true /\
                (hasQuit (queue w1) = true ->
                 busy (queue w1) = 0 /\ lst (stk (queue w1)) = [])).
  { rewrite step_running in Hs1 by exact Hq0. cbn [event_of] in Hs1.
    unfold run in Hs1. rewrite Hq0, on_quit_graceful in Hs1. injection Hs1 as <-.
    cbn [taken queue].
    destruct ((busy (queue w0) =? 0) && empty (stk (queue w0))) eqn:Eid.
    - apply idle_true in Eid. cbn. tauto.
    - destruct (CloseTimeout (options (queue w0)) >? 0); cbn; split; auto;
        rewrite Hq0; discriminate. }
  destruct Hw1 as [Hc1 Hd1].
  assert (Hc2 : closing (queue w2) = true) by (eapply closing_exec; eauto).
  split; [exact Hc2 |]. split; [| split; [| split; [| split]]].
  - unfold Wait, run, on_req. destruct (hasQuit (queue w2)) eqn:Hq.
    + eexists. split; [reflexivity |]. cbn. repeat split. discriminate.
    + rewrite Hc2. eexists. split; [reflexivity |].
      cbn [ret after outs newJob notify find_notify]. rewrite Nat.eqb_refl. auto.
  - intros Hnf. split.
    + apply (graceful_end_exec post w1 w2 Hnf Hc1 Hd1 He2).
    + intros Hd. destruct (hasQuit (queue w2)) eqn:Hq; [reflexivity |].
      exfalso. apply (Hcb eq_refl Hc2). exact Hd.
  - intros c w3 Hq Hs3 Hq3 Hnf.
    destruct (step_loop_case _ _ _ Hs3) as [[Hq' _] | [_ (s' & out & Hcase & ->)]];
      [congruence |].
    cbn [taken queue] in Hq3.
    destruct (loop_case_quit _ _ _ _ Hcase Hq Hq3)
      as [(E & _) | [(_ & Hb & Hl & _) | [E | E]]].
    + destruct c; cbn in E; congruence.
    + exfalso. apply (Hcb Hq Hc2). auto.
    + destruct c; cbn in E, Hnf; congruence.
    + destruct c; cbn in E, Hnf; congruence.
  - intros Hq. rewrite (Htimer Hq), Hc2, Hopt.
    destruct (normalize_rest o) as (_ & _ & ->). reflexivity.
  - intros Hq Hct. rewrite step_running by exact Hq. cbn [event_of].
    unfold run. rewrite Hq, on_closeTimeout_spec, Hct.
    eexists. split; [reflexivity |]. cbn. auto.
Qed.

Lemma graceful_close_witness :
  exists w2,
    exec (start (mkOptions 1 0 0 7)) [CallWait; CallWait; CallClose; CallDone; CallDone]
      = Some w2 /\
    hasQuit (queue w2) = true /\ busy (queue w2) = 0 /\
    sent w2 = [Notify 0%nat None; Notify 1%nat None].
Proof.
  exists (mkSystem
            (mkQueue (mkOptions 1 0 0 7) (mkStack 0 []) true 0 true true)
            2 [Notify 0%nat None; Notify 1%nat None] [1; 0]%nat 2).
  split; [reflexivity |]. split; [reflexivity |]. split; [| reflexivity].
  refine (proj1 (proj1 (proj1 (proj2 (proj2
    (graceful_close (mkOptions 1 0 0 7) [CallWait; CallWait] [CallDone; CallDone]
       (mkSystem
          (mkQueue (mkOptions 1 0 0 7) (mkStack 0 [mkJob 1%nat false])
             false 1 false false)
          2 [Notify 0%nat None] [1; 0]%nat 0)
       (mkSystem
          (mkQueue (mkOptions 1 0 0 7) (mkStack 0 [mkJob 1%nat false])
             true 1 false true)
          2 [Notify 0%nat None] [1; 0]%nat 0)
       _ eq_refl eq_refl eq_refl eq_refl))) eq_refl) eq_refl)).
Defined.

(** ** One value for every job *)

Lemma exec_sent cs w w' :
  exec w cs = Some w' -> exists more, sent w' = sent w ++ more.
Proof.
  revert w. induction cs as [| c cs IH]; intros w He; simpl in He.
  - injection He as <-. exists []. rewrite app_nil_r. reflexivity.
  - destruct (step w c) as [w1 |] eqn:Hs; [| discriminate].
    destruct (IH _ He) as [more Hm].
    destruct (step_cases _ _ _ Hs) as [[_ ->] | [_ (s' & out & _ & ->)]].
    + exists more. exact Hm.
    + exists (out ++ more). rewrite Hm. cbn [taken sent]. symmetry. apply app_assoc.
Qed.

Lemma length_one {A : Type} (l : list A) : length l = 1%nat -> exists x, l = [x].
Proof. destruct l as [| x [| y l]]; simpl; intros H; try discriminate. eauto. Qed.

(** C2, as it holds: a job that came in over [s.req] is never sent more
    than one value; nothing is sent to it while it waits on the stack and
    exactly one value once it has left the stack or was answered at once;
    when the loop has ended every job that came in has been sent its value;
    once a value ([nil] in particular) has been sent, no later step sends
    another.  A job made by a [Wait] that found [hasQuit] closed never came
    in and is sent nothing. *)
Theorem one_value_per_job (o : Options) (cs : list call) (w : system) :
  exec (start o) cs = Some w ->
  (forall c, (length (values_on c (sent w)) <= 1)%nat) /\
  (forall c, In c (reqs w) ->
     (In c (queued w) /\ values_on c (sent w) = []) \/
     (~ In c (queued w) /\ exists r, values_on c (sent w) = [r])) /\
  (hasQuit (queue w) = true ->
     forall c, In c (reqs w) -> exists r, values_on c (sent w) = [r]) /\
  (forall c, ~ In c (reqs w) -> values_on c (sent w) = []) /\
  (forall c r cs' w',
     values_on c (sent w) = [r] -> exec w cs' = Some w' ->
     values_on c (sent w') = [r]).
Proof.
  intros He.
  assert (Hle : forall cs w, exec (start o) cs = Some w ->
                forall c, (length (values_on c (sent w)) <= 1)%nat).
  { intros cs0 w0 H0 c. pose proof (inv_jobs_exec _ _ _ H0) as [_ _ _ Hv].
    rewrite Hv. destruct (mem c (reqs w0) && negb (mem c (queued w0))); lia. }
  pose proof (inv_jobs_exec _ _ _ He) as [_ Hq _ Hv].
  assert (Hin : forall c, In c (reqs w) ->
     (In c (queued w) /\ values_on c (sent w) = []) \/
     (~ In c (queued w) /\ exists r, values_on c (sent w) = [r])).
  { intros c Hc. specialize (Hv c). apply mem_In in Hc. rewrite Hc in Hv.
    destruct (mem c (queued w)) eqn:Em; cbn in Hv.
    - left. split; [apply mem_In; exact Em | apply length_zero_iff_nil; exact Hv].
    - right. split; [apply mem_false; exact Em | apply length_one; exact Hv]. }
  split; [apply (Hle cs); exact He |]. split; [exact Hin |]. split; [| split].
  - intros Hquit c Hc. pose proof (inv_busy_exec _ _ _ He) as [_ _ Hempty _ _].
    destruct (Hin c Hc) as [[Hw _] | [_ H]]; [| exact H].
    unfold queued in Hw. rewrite (Hempty Hquit) in Hw. destruct Hw.
  - intros c Hc. specialize (Hv c). apply mem_false in Hc. rewrite Hc in Hv.
    apply length_zero_iff_nil. exact Hv.
  - intros c r cs' w' Hr He'.
    destruct (exec_sent _ _ _ He') as [more Hm].
    assert (Hreach : exec (start o) (cs ++ cs') = Some w').
    { rewrite exec_app, He. exact He'. }
    pose proof (Hle _ _ Hreach c) as Hlen.
    rewrite Hm, values_on_app, Hr in Hlen |- *. cbn in Hlen.
    destruct (values_on c more); [reflexivity | cbn in Hlen; lia].
Qed.

Lemma one_value_per_job_witness :
  exists w,
    exec (start (mkOptions 1 1 0 0)) [CallWait; CallWait; CallWait; CallDone] = Some w /\
    values_on 1%nat (sent w) = [Some ErrStackFull] /\
    forall c, (length (values_on c (sent w)) <= 1)%nat.
Proof.
  exists (mkSystem
            (mkQueue (mkOptions 1 1 0 0) (mkStack 1 []) false 1 false false)
            3 [Notify 0%nat None; Notify 1%nat (Some ErrStackFull); Notify 2%nat None]
            [2; 1; 0]%nat 1).
  split; [reflexivity |]. split; [reflexivity |].
  apply (one_value_per_job (mkOptions 1 1 0 0) [CallWait; CallWait; CallWait; CallDone]).
  reflexivity.
Defined.

(** C2, as stated, fails for a job made by a [Wait] that finds [hasQuit]
    closed: the job is made, [Wait] returns [ErrClosed] by itself, and no
    value is ever sent on the job's channel. *)
Lemma wait_after_quit_sends_nothing :
  exists w0 w,
    exec (start (mkOptions 0 0 0 0)) [CallClose] = Some w0 /\
    Wait (queue w0) (made w0) =
      Some (mkCalled false (queue w0) [] (Some (Some ErrClosed))) /\
    step w0 CallWait = Some w /\ made w0 = 0%nat /\ made w = 1%nat /\
    forall cs w', exec w cs = Some w' -> values_on 0%nat (sent w') = [].
Proof.
  exists (mkSystem (mkQueue (mkOptions 1 0 0 0) (mkStack 0 []) true 0 true false)
            0 [] [] 0).
  exists (mkSystem (mkQueue (mkOptions 1 0 0 0) (mkStack 0 []) true 0 true false)
            1 [] [] 0).
  split; [reflexivity |]. split; [reflexivity |].
  split; [reflexivity |]. split; [reflexivity |]. split; [reflexivity |].
  intros cs w' He.
  assert (Hreach : exec (start (mkOptions 0 0 0 0)) ([CallClose; CallWait] ++ cs) = Some w').
  { rewrite exec_app. exact He. }
  assert (Hinv : hasQuit (queue w') = true /\ reqs w' = []).
  { revert He. apply (exec_invariant (fun w => hasQuit (queue w) = true /\ reqs w = [])).
    - intros w c w1 [Hq Hr] Hs.
      destruct (step_cases _ _ _ Hs) as [[_ ->] | [Hq' _]]; [| congruence].
      cbn. auto.
    - split; reflexivity. }
  pose proof (inv_jobs_exec _ _ _ Hreach) as [_ _ _ Hv].
  specialize (Hv 0%nat). destruct Hinv as [_ Hr]. rewrite Hr in Hv. cbn in Hv.
  apply length_zero_iff_nil. exact Hv.
Qed.

(** ** Reconfigure *)

Lemma promote_none s :
  slots s = 0%nat ->
  Some (s, @nil output) =
    Some (set_stk (set_busy s (busy s + Z.of_nat (slots s)))
            (mkStack (cap (stk s)) (skipn (slots s) (lst (stk s)))),
          let_in (firstn (slots s) (lst (stk s)))).
Proof.
  intros ->. destruct s as [o [c l] cl b hq ct]. cbn. rewrite Z.add_0_r. reflexivity.
Qed.

Lemma pop_lst st j rest :
  lst st = j :: rest -> pop st = Some (j, mkStack (cap st) rest).
Proof. destruct st as [c l]. cbn [lst cap]. intros ->. apply pop_cons. Qed.

Lemma promote_loop_spec n s :
  (length (lst (stk s)) <= n)%nat ->
  in_int (busy s) -> in_int (MaxConcurrency (options s)) ->
  promote_loop n s =
    Some (set_stk (set_busy s (busy s + Z.of_nat (slots s)))
            (mkStack (cap (stk s)) (skipn (slots s) (lst (stk s)))),
          let_in (firstn (slots s) (lst (stk s)))).
Proof.
  revert s. induction n as [| n IH]; intros s Hn Hi Hmax.
  - assert (El : lst (stk s) = []) by (destruct (lst (stk s)); [auto | simpl in Hn; lia]).
    assert (Hk : slots s = 0%nat) by (unfold slots, Len; rewrite El; cbn; lia).
    rewrite <- (promote_none s Hk). unfold promote_loop.
    assert (He : empty (stk s) = true) by (apply empty_true_iff; exact El).
    rewrite He, andb_false_r. reflexivity.
  - cbn [promote_loop].
    destruct (Z.ltb_spec (busy s) (MaxConcurrency (options s))) as [Hlt | Hge];
      [destruct (empty (stk s)) eqn:He |]; cbn [andb negb].
    + assert (El : lst (stk s) = []) by (apply empty_true_iff; exact He).
      assert (Hk : slots s = 0%nat) by (unfold slots, Len; rewrite El; cbn; lia).
      rewrite <- (promote_none s Hk). reflexivity.
    + assert (El : exists j rest, lst (stk s) = j :: rest).
      { destruct (lst (stk s)) as [| j rest] eqn:El; [| eauto].
        apply empty_true_iff in El. congruence. }
      destruct El as (j & rest & El).
      rewrite (pop_lst _ _ _ El), (incr_below _ _ Hi Hmax Hlt).
      rewrite IH; cbn [set_stk set_busy stk lst busy options cap].
      * assert (Hk : slots s =
          S (slots (set_stk (set_busy s (busy s + 1)) (mkStack (cap (stk s)) rest)))).
        { unfold slots, Len. cbn [set_stk set_busy stk lst busy options].
          rewrite El. cbn [length]. rewrite Nat2Z.inj_succ. lia. }
        rewrite Hk, El. cbn [skipn firstn let_in map].
        set (k := slots (set_stk (set_busy s (busy s + 1)) (mkStack (cap (stk s)) rest))).
        replace (busy s + 1 + Z.of_nat k) with (busy s + Z.of_nat (S k)) by lia.
        reflexivity.
      * rewrite El in Hn. simpl in Hn. lia.
      * unfold in_int in *. lia.
      * exact Hmax.
    + assert (Hk : slots s = 0%nat) by (unfold slots, Len; lia).
      rewrite <- (promote_none s Hk). reflexivity.
Qed.

Lemma trim_loop_spec n c l :
  (length l <= n)%nat ->
  trim_loop n (mkStack c l) =
    Some (mkStack c (kept c l),
          notify_all ErrStackFull (rev (skipn (length (kept c l)) l))).
Proof.
  revert l. induction n as [| n IH]; intros l Hn.
  - destruct l; [| simpl in Hn; lia].
    unfold trim_loop, kept, Len. cbn [cap lst length].
    destruct (Z.gtb_spec c 0); cbn; [| reflexivity].
    rewrite firstn_nil. destruct (Z.gtb_spec 0 c); [lia | reflexivity].
  - cbn [trim_loop cap]. unfold Len. cbn [lst].
    destruct (Z.gtb_spec c 0) as [Hc | Hc]; cbn [andb].
    + destruct (Z.gtb_spec (Z.of_nat (length l)) c) as [Hl | Hl].
      * destruct (snoc_cases l) as [-> | [l' [j ->]]]; [simpl in Hl; lia |].
        rewrite length_app in Hn, Hl. simpl in Hn, Hl.
        rewrite shift_snoc, IH by lia.
        assert (Hk : kept c (l' ++ [j]) = kept c l').
        { unfold kept. destruct (Z.gtb_spec c 0); [| lia].
          rewrite firstn_app. replace (Z.to_nat c - length l')%nat with 0%nat by lia.
          cbn. apply app_nil_r. }
        rewrite Hk.
        assert (Hlen : (length (kept c l') <= length l')%nat).
        { unfold kept. destruct (c >? 0); [| lia]. rewrite length_firstn. lia. }
        rewrite skipn_app.
        replace (length (kept c l') - length l')%nat with 0%nat by lia.
        cbn [skipn]. rewrite rev_app_distr. reflexivity.
      * assert (Hk : kept c l = l).
        { unfold kept. destruct (Z.gtb_spec c 0); [| lia]. apply firstn_all2. lia. }
        rewrite Hk, skipn_all. reflexivity.
    + assert (Hk : kept c l = l).
      { unfold kept. destruct (Z.gtb_spec c 0); [lia | reflexivity]. }
      rewrite Hk, skipn_all. reflexivity.
Qed.

(** C5, as it holds: called after the loop has ended, [Reconfigure]
    returns [ErrClosed]; otherwise it normalizes [MaxConcurrency], replaces
    the options, then, while [busy < MaxConcurrency] and a job waits, pops
    the newest job and lets it in, then trims the stack to the new
    [MaxStackSize], dropping the oldest job with [ErrStackFull] each time,
    and returns [nil].  In this order it passes every case of
    [TestReconfigure]. *)
Theorem reconfigure_promotes_then_trims (s : Stack) (o : Options) :
  (hasQuit s = true ->
     Reconfigure s o = Some (mkCalled false s [] (Some (Some ErrClosed)))) /\
  (hasQuit s = false -> in_int (busy s) -> opts_in_int o ->
     let k := slots (set_options s (normalize o)) in
     let waiting := skipn k (lst (stk s)) in
     let keep := kept (MaxStackSize o) waiting in
     exists s',
       Reconfigure s o =
         Some (mkCalled true s'
                 (let_in (firstn k (lst (stk s))) ++
                  notify_all ErrStackFull (rev (skipn (length keep) waiting)))
                 (Some None)) /\
       options s' = normalize o /\ busy s' = busy s + Z.of_nat k /\
       lst (stk s') = keep /\ cap (stk s') = MaxStackSize o /\
       closing s' = closing s /\ hasQuit s' = false /\
       closeTimeout s' = closeTimeout s) /\
  forallb (passes Reconfigure) TestReconfigure_cases = true /\
  passes_default Reconfigure = true /\ passes_closed Reconfigure = true.
Proof.
  split; [| split].
  - intros Hq. unfold Reconfigure. rewrite Hq. reflexivity.
  - intros Hq Hi Hint k waiting keep.
    destruct (normalize_rest o) as (Ecap & _ & _).
    unfold Reconfigure, promote, trim. rewrite Hq.
    rewrite promote_loop_spec; cbn [set_options stk lst busy options cap].
    + fold k. cbn [set_stk set_busy stk lst cap].
      rewrite trim_loop_spec by lia. fold waiting. rewrite Ecap. fold keep.
      eexists. split; [reflexivity |]. cbn. repeat split; auto.
    + lia.
    + exact Hi.
    + apply normalize_in_int. exact Hint.
  - repeat split; reflexivity.
Qed.

Lemma reconfigure_promotes_then_trims_witness :
  exists r,
    Reconfigure
      (mkQueue (mkOptions 2 2 0 0) (mkStack 2 [mkJob 3%nat false; mkJob 2%nat false])
         false 2 false false)
      (mkOptions 3 1 0 0) = Some r /\
    outs r = [Notify 3%nat None] /\ busy (after r) = 3 /\
    map notify (lst (stk (after r))) = [2%nat].
Proof.
  destruct (reconfigure_promotes_then_trims
    (mkQueue (mkOptions 2 2 0 0) (mkStack 2 [mkJob 3%nat false; mkJob 2%nat false])
       false 2 false false)
    (mkOptions 3 1 0 0)) as (_ & H & _).
  destruct H as (s' & Hr & _ & Hb & Hl & _).
  - reflexivity.
  - apply in_int_small. cbn. lia.
  - split; apply in_int_small; cbn; lia.
  - eexists. split; [exact Hr |]. cbn [outs after]. rewrite Hb, Hl.
    repeat split; reflexivity.
Defined.

(** C5, as stated, trims before it lets jobs in.  On the row "increase
    concurrency, decrease stack size" of [TestReconfigure] that order drops
    the oldest waiting job and lets the other one in, which leaves a status
    of 3 active and 0 queued jobs, where the test expects 3 and 1. *)
Lemma reconfigure_as_specified_fails_test :
  In (mkOptions 3 1 0 0, mkStatus 3 1 false false) TestReconfigure_cases /\
  passes Reconfigure_as_specified (mkOptions 3 1 0 0, mkStatus 3 1 false false) = false /\
  exists w r,
    saturated = Some w /\
    status_of (queue w) = Some (mkStatus 2 2 false false) /\
    Reconfigure_as_specified (queue w) (mkOptions 3 1 0 0) = Some r /\
    outs r = [Notify 2%nat (Some ErrStackFull); Notify 3%nat None] /\
    status_of (after r) = Some (mkStatus 3 0 false false).
Proof.
  split; [| split].
  - cbn. tauto.
  - reflexivity.
  - exists (mkSystem
              (mkQueue (mkOptions 2 2 0 0)
                 (mkStack 2 [mkJob 3%nat false; mkJob 2%nat false]) false 2 false false)
              4 [Notify 0%nat None; Notify 1%nat None] [3; 2; 1; 0]%nat 0).
    exists (mkCalled true
              (mkQueue (mkOptions 3 1 0 0) (mkStack 1 []) false 3 false false)
              [Notify 2%nat (Some ErrStackFull); Notify 3%nat None] (Some None)).
    repeat split; reflexivity.
Qed.

(** ** The HTTP handler *)

(** C10: the handler runs the wrapped handler through [Do] on the queue
    made by [With]; when the job is rejected with [ErrStackFull] it writes
    [StackFullStatusCode], with [ErrTimeout] it writes [TimeoutStatusCode],
    each being 503 when configured as 0, and the wrapped handler does not
    run; when the job is let in, the response is the wrapped handler's;
    without a wrapped handler the response is 404. *)
Theorem handler_status (Request : Type) (o : HTTPOptions)
  (inner : option (http_Handler Request)) (r : Request) (w : ResponseWriter) :
  let h := NewHandler o inner in
  h_stack h = With (Options_ o) /\
  ServeHTTP h (Some ErrStackFull) w r =
    WriteHeader w (if StackFullStatusCode o =? 0 then 503 else StackFullStatusCode o) /\
  ServeHTTP h (Some ErrTimeout) w r =
    WriteHeader w (if TimeoutStatusCode o =? 0 then 503 else TimeoutStatusCode o) /\
  code (ServeHTTP h (Some ErrStackFull) fresh_writer r) =
    (if StackFullStatusCode o =? 0 then 503 else StackFullStatusCode o) /\
  code (ServeHTTP h (Some ErrTimeout) fresh_writer r) =
    (if TimeoutStatusCode o =? 0 then 503 else TimeoutStatusCode o) /\
  ServeHTTP h None w r =
    match inner with
    | Some f => f w r
    | None => WriteHeader w 404
    end /\
  code (ServeHTTP (NewHandler o None) None fresh_writer r) = 404.
Proof.
  unfold NewHandler, ServeHTTP, Do. cbn [h_stack h_handler h_options].
  destruct o as [base sf tm]. cbn [StackFullStatusCode TimeoutStatusCode Options_].
  split; [reflexivity |].
  destruct (sf =? 0) eqn:Esf; cbn [StackFullStatusCode TimeoutStatusCode Options_];
    destruct (tm =? 0) eqn:Etm; cbn [StackFullStatusCode TimeoutStatusCode Options_];
    repeat split; destruct inner; reflexivity.
Qed.

(** * Further properties of the code *)

(** ** The stack at its edges *)

(** X1: [pop] and [shift] panic exactly on an empty stack and [bottom]
    is [nil] exactly there; on a stack that is not empty [shift] takes off
    the job that [bottom] shows, and both [pop] and [shift] take off one
    job and keep the capacity; a stack whose capacity is zero or less is
    never full; and a full stack is no longer full after a [shift]. *)
Theorem stack_edges (st : stack) :
  (pop st = None <-> lst st = []) /\
  (shift st = None <-> lst st = []) /\
  (bottom st = None <-> lst st = []) /\
  (forall j st', shift st = Some (j, st') ->
     bottom st = Some j /\ lst st = lst st' ++ [j] /\ cap st' = cap st) /\
  (forall j st', pop st = Some (j, st') ->
     lst st = j :: lst st' /\ cap st' = cap st) /\
  (cap st <= 0 -> full st = false) /\
  (forall j st', full st = true -> shift st = Some (j, st') -> full st' = false).
Proof.
  destruct st as [c l].
  destruct (snoc_cases l) as [-> | [l' [x ->]]].
  - rewrite pop_nil, shift_nil, bottom_nil. cbn [lst cap].
    repeat split; try tauto; try discriminate.
    intros Hc. unfold full. cbn [cap]. destruct (Z.gtb_spec c 0); [lia | reflexivity].
  - rewrite shift_snoc, bottom_snoc. cbn [lst cap].
    assert (Hne : l' ++ [x] <> []) by (destruct l'; discriminate).
    split; [| split; [| split; [| split; [| split; [| split]]]]].
    + split; [| tauto]. destruct l'; discriminate.
    + split; [discriminate | tauto].
    + split; [discriminate | tauto].
    + intros j st' H. injection H as <- <-. auto.
    + intros j st' H. destruct l' as [| y l'']; cbn in H; injection H as <- <-; auto.
    + intros Hc. unfold full. cbn [cap]. destruct (Z.gtb_spec c 0); [lia | reflexivity].
    + intros j st' Hf H. injection H as <- <-.
      destruct (full_true _ Hf) as (_ & Hlen & _). unfold full, Len in *.
      cbn [cap lst] in *. rewrite length_app in Hlen. cbn in Hlen.
      apply andb_false_iff. right. apply Z.eqb_neq. lia.
Qed.

Lemma stack_edges_witness :
  full (mkStack 1 [mkJob 0%nat false]) = true /\
  shift (mkStack 1 [mkJob 0%nat false]) = Some (mkJob 0%nat false, mkStack 1 []) /\
  full (mkStack 1 []) = false.
Proof.
  split; [reflexivity |]. split; [reflexivity |].
  refine (proj2 (proj2 (proj2 (proj2 (proj2 (proj2
    (stack_edges (mkStack 1 [mkJob 0%nat false]))))))) _ _ eq_refl eq_refl).
Defined.

(** ** The loop does not panic *)

(** X2: while the loop runs, an iteration fails only when the chosen
    timer channel is [nil], which [select] never chooses: arrivals,
    completions, status requests and close requests are always taken and
    dealt with, and [pop] and [shift] are never reached on an empty
    stack. *)
Theorem loop_never_panics (s : Stack) (ev : event) :
  hasQuit s = false ->
  (run s ev = None <->
   (ev = EvTimeout /\
    (lst (stk s) = [] \/ exists j, bottom (stk s) = Some j /\ timeout j = false)) \/
   (ev = EvCloseTimeout /\ closeTimeout s = false)).
Proof.
  intros Hq. unfold run. rewrite Hq. destruct ev as [j | | | | forced |].
  - destruct (on_req_total s j) as (s' & out & -> & _).
    split; [discriminate | intros [[E _] | [E _]]; discriminate].
  - rewrite on_done_spec.
    split; [discriminate | intros [[E _] | [E _]]; discriminate].
  - unfold on_timeout. rewrite (stack_eta (stk s)).
    destruct (snoc_cases (lst (stk s))) as [-> | [l [x ->]]].
    + rewrite bottom_nil. split; auto.
    + rewrite bottom_snoc, shift_snoc. destruct (timeout x) eqn:Et.
      * split; [discriminate |].
        intros [[_ [E | (j & E & Ej)]] | [E _]]; try discriminate.
        -- destruct l; discriminate.
        -- injection E as <-. congruence.
      * split; auto. intros _. left. split; [reflexivity |]. right. eauto.
  - unfold on_status. split; [discriminate | intros [[E _] | [E _]]; discriminate].
  - destruct forced; [rewrite on_quit_forced | rewrite on_quit_graceful];
      (split; [discriminate | intros [[E _] | [E _]]; discriminate]).
  - rewrite on_closeTimeout_spec. destruct (closeTimeout s).
    + split; [discriminate | intros [[E _] | [_ E]]; discriminate].
    + split; auto.
Qed.

Lemma loop_never_panics_witness :
  run (With (mkOptions 1 0 0 0)) EvTimeout = None /\
  run (With (mkOptions 1 0 0 0)) EvDone <> None.
Proof.
  split.
  - apply (loop_never_panics (With (mkOptions 1 0 0 0)) EvTimeout eq_refl).
    left. split; [reflexivity |]. left. reflexivity.
  - intros H. apply (loop_never_panics (With (mkOptions 1 0 0 0)) EvDone eq_refl) in H.
    destruct H as [[E _] | [E _]]; discriminate.
Defined.

(** ** Accounting *)

Lemma answered_app a b : answered (a ++ b) = (answered a + answered b)%nat.
Proof. induction a as [| [c r | st] a IH]; simpl; lia. Qed.

Lemma answered_notify_all e l : answered (notify_all e l) = length l.
Proof. induction l; simpl; auto. Qed.

Lemma accounted_step w c w' :
  length (reqs w) = (length (lst (stk (queue w))) + answered (sent w))%nat ->
  step w c = Some w' ->
  length (reqs w') = (length (lst (stk (queue w'))) + answered (sent w'))%nat.
Proof.
  intros H Hstep.
  destruct (step_loop_case _ _ _ Hstep) as [[_ ->] | [Hq (s' & out & Hcase & ->)]].
  { cbn [untaken queue sent reqs]. exact H. }
  clear Hstep. remember (event_of w c) as ev eqn:Eev.
  destruct Hcase as [j s' out Hr | El | j rest El | rest oldest El Et | | | | Ec];
    destruct c; try discriminate Eev; cbn [taken queue sent reqs];
    rewrite answered_app; rewrite ?lst_finish, ?lst_graceful.
  - destruct Hr as [ Hcl | Hcl Hlt | rest oldest Hcl Hge Hf El | Hcl Hge Hf ];
      cbn [set_busy set_stk stk lst answered length]; try lia.
    rewrite El, length_app in H. cbn [length] in H. lia.
  - cbn [set_busy stk answered]. lia.
  - cbn [set_busy set_stk stk lst answered]. rewrite El in H. cbn [length] in H. lia.
  - cbn [set_stk stk lst answered]. rewrite El, length_app in H. cbn [length] in H. lia.
  - cbn [answered]. lia.
  - cbn [rejected fst snd close_hasQuit set_stk stk lst length].
    rewrite answered_notify_all, length_rev. lia.
  - cbn [answered]. lia.
  - cbn [rejected fst snd close_hasQuit set_stk stk lst length].
    rewrite answered_notify_all, length_rev. lia.
Qed.

(** X4: every job the loop received is waiting on the stack or was sent
    a value, and none is counted twice; so, with every done function called
    at most once, the status the loop reports shows as active the jobs let
    in less the tokens received, and as queued the jobs received less the
    jobs answered; when the loop has ended every job received was
    answered. *)
Theorem accounting (o : Options) (cs : list call) (w : system) :
  opts_in_int o ->
  exec_once (start o) cs = Some w ->
  length (reqs w) = (length (queued w) + answered (sent w))%nat /\
  (hasQuit (queue w) = false ->
     exists st,
       status_of (queue w) = Some st /\
       ActiveJobs st = Z.of_nat (granted (sent w)) - Z.of_nat (tokens w) /\
       QueuedJobs st = Z.of_nat (length (reqs w)) - Z.of_nat (answered (sent w)) /\
       Closing st = closing (queue w) /\ Closed st = false) /\
  (hasQuit (queue w) = true -> length (reqs w) = answered (sent w)).
Proof.
  intros Hint He.
  pose proof (inv_once_exec _ _ _ Hint He) as [Hc _ _].
  apply exec_once_exec in He.
  assert (Hacc : length (reqs w) = (length (lst (stk (queue w))) + answered (sent w))%nat).
  { revert He. apply (exec_invariant
      (fun w => length (reqs w) = (length (lst (stk (queue w))) + answered (sent w))%nat)).
    - intros. eapply accounted_step; eauto.
    - reflexivity. }
  split; [| split].
  - unfold queued. rewrite length_map. exact Hacc.
  - intros Hq. unfold status_of, StatusCall, run, on_status. rewrite Hq.
    eexists. split; [reflexivity |]. cbn. unfold Len. repeat split; try lia.
  - intros Hq. pose proof (inv_busy_exec _ _ _ He) as [_ _ Hempty _ _].
    rewrite (Hempty Hq) in Hacc. exact Hacc.
Qed.

Lemma accounting_witness :
  exists w,
    exec_once (start (mkOptions 1 1 0 0)) [CallWait; CallWait; CallWait; CallDone] = Some w /\
    length (reqs w) = 3%nat /\ answered (sent w) = 3%nat /\ queued w = [].
Proof.
  exists (mkSystem
            (mkQueue (mkOptions 1 1 0 0) (mkStack 1 []) false 1 false false)
            3 [Notify 0%nat None; Notify 1%nat (Some ErrStackFull); Notify 2%nat None]
            [2; 1; 0]%nat 1).
  assert (Hint : opts_in_int (mkOptions 1 1 0 0)).
  { split; apply in_int_small; cbn; lia. }
  split; [reflexivity |].
  match goal with |- length (reqs ?w) = _ /\ _ =>
    destruct (accounting (mkOptions 1 1 0 0) [CallWait; CallWait; CallWait; CallDone] w
                Hint eq_refl) as (H & _)
  end.
  split; [| split; reflexivity]. rewrite H. reflexivity.
Defined.

(** ** Which error is sent when *)

Lemma sends_app e a b : sends e (a ++ b) = sends e a || sends e b.
Proof.
  induction a as [| [c [e' |] | st] a IH]; simpl; auto.
  rewrite IH. apply orb_assoc.
Qed.

Lemma error_eqb_eq a b : error_eqb a b = true -> a = b.
Proof. destruct a, b; simpl; congruence. Qed.

Lemma sends_notify_all e e' l : sends e (notify_all e' l) = true -> e = e'.
Proof.
  induction l as [| j l IH]; simpl; [discriminate |].
  intros H. apply orb_true_iff in H. destruct H as [H | H]; auto using error_eqb_eq.
Qed.

(** What must hold for an iteration to send an error. *)
Lemma loop_case_sends s ev s' out e :
  loop_case s ev s' out -> sends e out = true ->
  (e = ErrStackFull /\ full (stk s) = true) \/
  (e = ErrTimeout /\ exists rest oldest,
      ev = EvTimeout /\ lst (stk s) = rest ++ [oldest] /\ timeout oldest = true) \/
  (e = ErrClosed /\ (closing s = true \/ hasQuit s' = true)).
Proof.
  intros Hcase Hs.
  destruct Hcase as [j s' out Hr | El | j rest El | rest oldest El Et | | | | Ec];
    cbn in Hs; try discriminate.
  - destruct Hr as [ Hcl | Hcl Hlt | rest oldest Hcl Hge Hf El | Hcl Hge Hf ];
      cbn in Hs; try discriminate;
      rewrite orb_false_r in Hs; apply error_eqb_eq in Hs; subst; auto.
  - rewrite orb_false_r in Hs. apply error_eqb_eq in Hs. subst. right. left.
    split; [reflexivity |]. eauto.
  - apply sends_notify_all in Hs. subst. auto.
  - apply sends_notify_all in Hs. subst. auto.
Qed.

Lemma timers_step o w c w' :
  inv_frame o w ->
  Forall (fun j => timeout j = (Timeout o >? 0)) (lst (stk (queue w))) ->
  step w c = Some w' ->
  Forall (fun j => timeout j = (Timeout o >? 0)) (lst (stk (queue w'))).
Proof.
  intros [Ho _] H Hstep.
  destruct (step_loop_case _ _ _ Hstep) as [[_ ->] | [Hq (s' & out & Hcase & ->)]];
    [exact H |].
  clear Hstep. remember (event_of w c) as ev eqn:Eev.
  assert (Hnew : forall j, ev = EvReq j -> timeout j = (Timeout o >? 0)).
  { intros j E. rewrite E in Eev. destruct c; try discriminate Eev.
    cbn [event_of] in Eev. injection Eev as ->. cbn [newJob timeout]. rewrite Ho.
    destruct (normalize_rest o) as (_ & -> & _). reflexivity. }
  destruct Hcase as [j s' out Hr | El | j rest El | rest oldest El Et | | | | Ec];
    cbn [taken queue]; rewrite ?lst_finish, ?lst_graceful;
    cbn [set_busy set_stk stk lst rejected fst close_hasQuit]; auto.
  - specialize (Hnew j eq_refl).
    destruct Hr as [ Hcl | Hcl Hlt | rest oldest Hcl Hge Hf El | Hcl Hge Hf ];
      cbn [set_busy set_stk stk lst]; auto.
    rewrite El in H. apply Forall_app in H. destruct H as [H _]. auto.
  - rewrite El in H. inversion H; auto.
  - rewrite El in H. apply Forall_app in H. tauto.
Qed.

(** X7: no job is sent [ErrClosed] before a close is asked for: as long
    as the queue is neither closing nor ended, [ErrClosed] was never
    sent. *)
Theorem no_ErrClosed_before_close (o : Options) (cs : list call) (w : system) :
  exec (start o) cs = Some w ->
  closing (queue w) = false -> hasQuit (queue w) = false ->
  sends ErrClosed (sent w) = false.
Proof.
  apply (exec_invariant (fun w =>
    closing (queue w) = false -> hasQuit (queue w) = false ->
    sends ErrClosed (sent w) = false)).
  - intros w0 c w' H Hstep Hc' Hq'.
    destruct (step_loop_case _ _ _ Hstep) as [[Hq ->] | [Hq (s' & out & Hcase & ->)]].
    + cbn [untaken queue] in Hq'. congruence.
    + cbn [taken queue sent] in *.
      assert (Hc : closing (queue w0) = false).
      { destruct (closing (queue w0)) eqn:E; [| reflexivity].
        rewrite (loop_case_closing _ _ _ _ Hcase E) in Hc'. discriminate. }
      rewrite sends_app, (H Hc Hq). cbn [orb].
      destruct (sends ErrClosed out) eqn:Eo; [| reflexivity].
      destruct (loop_case_sends _ _ _ _ _ Hcase Eo)
        as [[E _] | [[E _] | [_ [F | F]]]]; congruence.
  - reflexivity.
Qed.

Lemma no_ErrClosed_before_close_witness :
  exists w,
    exec (start (mkOptions 1 1 0 0)) [CallWait; CallWait; CallWait] = Some w /\
    sends ErrStackFull (sent w) = true /\ sends ErrClosed (sent w) = false.
Proof.
  exists (mkSystem
            (mkQueue (mkOptions 1 1 0 0) (mkStack 1 [mkJob 2%nat false])
               false 1 false false)
            3 [Notify 0%nat None; Notify 1%nat (Some ErrStackFull)] [2; 1; 0]%nat 0).
  split; [reflexivity |]. split; [reflexivity |].
  match goal with |- sends _ (sent ?w) = _ =>
    apply (no_ErrClosed_before_close (mkOptions 1 1 0 0) [CallWait; CallWait; CallWait] w);
      reflexivity
  end.
Defined.

(** ** Closing, forced and repeated *)

(** X8: a forced close taken by the running loop sends [ErrClosed] to
    every waiting job, the oldest first, leaves the stack empty and ends the
    loop at once, whatever the counter is; the counter, the options and the
    [closing] flag stay as they were. *)
Theorem forced_close (s : Stack) :
  hasQuit s = false ->
  exists s',
    CloseForced s =
      Some (mkCalled true s' (notify_all ErrClosed (rev (lst (stk s)))) (Some tt)) /\
    hasQuit s' = true /\ lst (stk s') = [] /\ cap (stk s') = cap (stk s) /\
    busy s' = busy s /\ options s' = options s /\ closing s' = closing s.
Proof.
  intros Hq. unfold CloseForced, quit_call, run. rewrite Hq, on_quit_forced.
  eexists. split; [reflexivity |]. cbn. repeat split.
Qed.

Lemma forced_close_witness :
  exists s',
    CloseForced (mkQueue (mkOptions 1 0 0 0)
                   (mkStack 0 [mkJob 2%nat false; mkJob 1%nat false]) false 1 false false)
    = Some (mkCalled true s' [Notify 1%nat (Some ErrClosed); Notify 2%nat (Some ErrClosed)]
              (Some tt)) /\
    busy s' = 1.
Proof.
  destruct (forced_close (mkQueue (mkOptions 1 0 0 0)
                   (mkStack 0 [mkJob 2%nat false; mkJob 1%nat false]) false 1 false false)
              eq_refl) as (s' & H & _ & _ & _ & Hb & _).
  exists s'. split; [exact H | exact Hb].
Defined.

(** ** A graceful close drains the queue *)

Lemma finish_busy s : 0 < busy s -> finish s = s.
Proof.
  intros Hb. unfold finish, drained.
  destruct (Z.eqb_spec (busy s) 0); [lia |]. rewrite andb_false_r. reflexivity.
Qed.

Lemma step_done_next w j rest :
  hasQuit (queue w) = false -> lst (stk (queue w)) = j :: rest ->
  in_int (busy (queue w)) ->
  step w CallDone =
    Some (taken w CallDone
            (finish (set_stk (queue w) (mkStack (cap (stk (queue w))) rest)))
            [Notify (notify j) None]).
Proof.
  intros Hq El Hi. rewrite step_running by exact Hq. cbn [event_of].
  unfold run. rewrite Hq, on_done_spec. unfold done_next. rewrite El. cbn [fst snd].
  rewrite incr_decr by exact Hi.
  replace (set_busy (queue w) (busy (queue w))) with (queue w)
    by (destruct (queue w); reflexivity).
  reflexivity.
Qed.

Lemma step_done_idle w :
  hasQuit (queue w) = false -> lst (stk (queue w)) = [] ->
  in_int (busy (queue w)) -> 0 < busy (queue w) ->
  step w CallDone =
    Some (taken w CallDone (finish (set_busy (queue w) (busy (queue w) - 1))) []).
Proof.
  intros Hq El Hi Hb. rewrite step_running by exact Hq. cbn [event_of].
  unfold run. rewrite Hq, on_done_spec. unfold done_next. rewrite El. cbn [fst snd].
  rewrite decr_above; [reflexivity | exact Hi | unfold min_int; lia].
Qed.

Lemma drains_step w w1 n o1 out :
  step w CallDone = Some w1 -> hasQuit (queue w) = false ->
  sent w1 = sent w ++ o1 ->
  drains w1 n out -> drains w (S n) (o1 ++ out).
Proof.
  intros Hs Hq Hsent [(w' & He & Hq' & Hout) Hbefore]. split.
  - exists w'. unfold completions in *. cbn [repeat exec]. rewrite Hs.
    split; [exact He |]. split; [exact Hq' |]. rewrite Hout, Hsent. symmetry.
    apply app_assoc.
  - intros [| m] Hm.
    + exists w. split; [reflexivity | exact Hq].
    + destruct (Hbefore m ltac:(lia)) as (wm & Hem & Hqm).
      exists wm. unfold completions in *. cbn [repeat exec]. rewrite Hs. auto.
Qed.

Lemma drain_empty k :
  forall w,
    hasQuit (queue w) = false -> closing (queue w) = true ->
    lst (stk (queue w)) = [] -> in_int (busy (queue w)) ->
    busy (queue w) = Z.of_nat (S k) ->
    drains w (S k) [].
Proof.
  induction k as [| k IH]; intros w Hq Hc El Hi Hb.
  - pose proof (step_done_idle w Hq El Hi ltac:(lia)) as Hs.
    assert (Hd : drained (set_busy (queue w) (busy (queue w) - 1)) = true).
    { unfold drained. cbn [set_busy closing busy stk]. rewrite Hc, Hb.
      apply andb_true_iff. split; [reflexivity |]. apply empty_true_iff. exact El. }
    unfold finish in Hs. rewrite Hd in Hs. split.
    + eexists. unfold completions. cbn [repeat exec]. rewrite Hs.
      split; [reflexivity |]. split; reflexivity.
    + intros m Hm. assert (m = 0%nat) by lia. subst m.
      exists w. split; [reflexivity | exact Hq].
  - pose proof (step_done_idle w Hq El Hi ltac:(lia)) as Hs.
    rewrite finish_busy in Hs by (cbn [set_busy busy]; lia).
    apply (drains_step _ _ _ [] [] Hs Hq); [reflexivity |].
    apply IH; cbn [taken queue set_busy hasQuit closing stk busy]; auto.
    + unfold in_int, min_int, max_int in *. lia.
    + lia.
Qed.

Lemma drain_all l :
  forall w,
    lst (stk (queue w)) = l ->
    hasQuit (queue w) = false -> closing (queue w) = true ->
    in_int (busy (queue w)) -> 0 < busy (queue w) ->
    drains w (length l + Z.to_nat (busy (queue w))) (let_in l).
Proof.
  induction l as [| j rest IH]; intros w El Hq Hc Hi Hb.
  - cbn [length Nat.add let_in map].
    destruct (Z.to_nat (busy (queue w))) as [| k] eqn:Ek; [lia |].
    apply drain_empty; auto. lia.
  - pose proof (step_done_next w j rest Hq El Hi) as Hs.
    rewrite finish_busy in Hs by (cbn [set_stk busy]; lia).
    cbn [length Nat.add].
    apply (drains_step _ _ _ [Notify (notify j) None] (let_in rest) Hs Hq);
      [reflexivity |].
    specialize (IH (taken w CallDone
      (set_stk (queue w) (mkStack (cap (stk (queue w))) rest)) [Notify (notify j) None])).
    cbn [taken queue set_stk stk lst hasQuit closing busy] in IH. apply IH; auto.
Qed.

(** X10: with every done function called at most once, a queue that is
    closing and still running, with [k] jobs waiting and [b] jobs active,
    ends exactly at the [(k + b)]-th completion that follows, not before;
    meanwhile every waiting job is let in, the newest first, and no job is
    sent an error. *)
Theorem close_drains (o : Options) (cs : list call) (w : system) :
  opts_in_int o ->
  exec_once (start o) cs = Some w ->
  hasQuit (queue w) = false -> closing (queue w) = true ->
  drains w (length (lst (stk (queue w))) + Z.to_nat (busy (queue w)))
    (let_in (lst (stk (queue w)))).
Proof.
  intros Hint He Hq Hc.
  pose proof (inv_once_exec _ _ _ Hint He) as [Hn Ht _].
  apply exec_once_exec in He.
  pose proof (inv_busy_exec _ _ _ He) as [Hi _ _ Hcb _].
  apply drain_all; auto.
  specialize (Hcb Hq Hc).
  destruct (Z.eq_dec (busy (queue w)) 0) as [E | E]; [| lia].
  destruct (lst (stk (queue w))) eqn:El; [tauto |].
  pose proof (inv_busy_exec _ _ _ He) as [_ Hs _ _ _].
  destruct (inv_frame_exec _ _ _ He) as [Ho _].
  rewrite El, Ho in Hs. pose proof (normalize_pos o). specialize (Hs ltac:(discriminate)).
  lia.
Qed.

Lemma close_drains_witness :
  exists w w',
    exec_once (start (mkOptions 1 0 0 0)) [CallWait; CallWait; CallWait; CallClose] = Some w /\
    exec w (completions 3) = Some w' /\ hasQuit (queue w') = true /\
    sent w' = sent w ++ [Notify 2%nat None; Notify 1%nat None].
Proof.
  exists (mkSystem
            (mkQueue (mkOptions 1 0 0 0)
               (mkStack 0 [mkJob 2%nat false; mkJob 1%nat false]) true 1 false false)
            3 [Notify 0%nat None] [2; 1; 0]%nat 0).
  assert (Hint : opts_in_int (mkOptions 1 0 0 0)).
  { split; apply in_int_small; cbn; lia. }
  match goal with |- exists w', _ = Some ?w /\ _ =>
    destruct (close_drains (mkOptions 1 0 0 0)
                [CallWait; CallWait; CallWait; CallClose] w Hint eq_refl eq_refl eq_refl)
      as [(w' & He & Hq & Hs) _]
  end.
  exists w'. split; [reflexivity |]. split; [exact He |]. split; [exact Hq | exact Hs].
Defined.

(** ** An arrival followed by a completion *)

Lemma finish_open s : closing s = false -> finish s = s.
Proof. intros Hc. unfold finish, drained. rewrite Hc. reflexivity. Qed.

Lemma set_stk_eta s : set_stk s (mkStack (cap (stk s)) (lst (stk s))) = s.
Proof. destruct s as [o [c l] cl b hq ct]. reflexivity. Qed.

Lemma on_done_finish s :
  on_done s = Some (finish (fst (done_next s)), snd (done_next s)).
Proof. rewrite on_done_spec. reflexivity. Qed.

(** X11: on a running queue that is not closing, a [Wait] followed at
    once by a completion lets the new job in: when the stack was not full
    the queue is left exactly as it was; when it was full the oldest waiting
    job has been sent [ErrStackFull] and is gone, and nothing else has
    changed. *)
Theorem wait_then_done (o : Options) (cs : list call) (w : system) :
  opts_in_int o ->
  exec (start o) cs = Some w ->
  hasQuit (queue w) = false -> closing (queue w) = false ->
  exists w',
    exec w [CallWait; CallDone] = Some w' /\
    (full (stk (queue w)) = false \/ busy (queue w) < MaxConcurrency (options (queue w)) ->
       queue w' = queue w /\ sent w' = sent w ++ [Notify (made w) None]) /\
    (full (stk (queue w)) = true ->
     MaxConcurrency (options (queue w)) <= busy (queue w) ->
       exists rest oldest,
         lst (stk (queue w)) = rest ++ [oldest] /\
         queue w' = set_stk (queue w) (mkStack (cap (stk (queue w))) rest) /\
         sent w' = sent w ++ [Notify (notify oldest) (Some ErrStackFull);
                              Notify (made w) None]).
Proof.
  intros Hint He Hq Hc.
  pose proof (inv_busy_exec _ _ _ He) as [Hi Hslot _ _ _].
  destruct (inv_frame_exec _ _ _ He) as [Ho _].
  assert (Hmax : in_int (MaxConcurrency (options (queue w)))).
  { rewrite Ho. apply normalize_in_int. exact Hint. }
  cbn [exec]. rewrite step_running by exact Hq. cbn [event_of]. unfold run. rewrite Hq.
  destruct (on_req_total (queue w) (newJob (queue w) (made w))) as (s1 & o1 & -> & Hr).
  destruct Hr as [ Hcl | _ Hlt | rest oldest _ Hge Hf El | _ Hge Hf ]; [congruence | | |].
  - assert (El : lst (stk (queue w)) = []).
    { destruct (lst (stk (queue w))) eqn:E; [reflexivity |].
      specialize (Hslot ltac:(discriminate)). lia. }
    rewrite (incr_below _ _ Hi Hmax Hlt).
    rewrite step_running by exact Hq. cbn [event_of taken queue]. unfold run.
    cbn [set_busy hasQuit]. rewrite Hq, on_done_finish. unfold done_next.
    cbn [set_busy stk busy]. rewrite El. cbn [fst snd set_busy].
    rewrite decr_above;
      [| unfold in_int, min_int, max_int in *; lia | unfold in_int, min_int in *; lia].
    rewrite finish_open by exact Hc.
    eexists. split; [reflexivity |]. cbn [taken queue sent]. split.
    + intros _. split.
      * replace (busy (queue w) + 1 - 1) with (busy (queue w)) by lia.
        destruct (queue w); reflexivity.
      * rewrite app_nil_r. reflexivity.
    + intros _ Hge. lia.
  - rewrite step_running by exact Hq. cbn [event_of taken queue]. unfold run.
    cbn [set_stk hasQuit]. rewrite Hq, on_done_finish. unfold done_next.
    cbn [set_stk set_busy stk busy lst cap fst snd].
    rewrite incr_decr by exact Hi. rewrite finish_open by exact Hc.
    eexists. split; [reflexivity |]. cbn [taken queue sent]. split.
    + intros [F | Hlt]; [congruence | lia].
    + intros _ _. exists rest, oldest. split; [exact El |]. split.
      * destruct (queue w); reflexivity.
      * rewrite <- app_assoc. reflexivity.
  - rewrite step_running by exact Hq. cbn [event_of taken queue]. unfold run.
    cbn [set_stk hasQuit]. rewrite Hq, on_done_finish. unfold done_next.
    cbn [set_stk set_busy stk busy lst cap fst snd].
    rewrite incr_decr by exact Hi. rewrite finish_open by exact Hc.
    eexists. split; [reflexivity |]. cbn [taken queue sent]. split.
    + intros _. split.
      * destruct (queue w) as [op [c l] cl b hq ct]. reflexivity.
      * rewrite <- app_assoc. reflexivity.
    + intros F. congruence.
Qed.

Lemma wait_then_done_witness :
  exists w w',
    exec (start (mkOptions 1 0 0 0)) [CallWait; CallWait] = Some w /\
    exec w [CallWait; CallDone] = Some w' /\
    queue w' = queue w /\ sent w' = sent w ++ [Notify 2%nat None].
Proof.
  exists (mkSystem
            (mkQueue (mkOptions 1 0 0 0) (mkStack 0 [mkJob 1%nat false])
               false 1 false false)
            2 [Notify 0%nat None] [1; 0]%nat 0).
  assert (Hint : opts_in_int (mkOptions 1 0 0 0)).
  { split; apply in_int_small; cbn; lia. }
  match goal with |- exists w', _ = Some ?w /\ _ =>
    destruct (wait_then_done (mkOptions 1 0 0 0) [CallWait; CallWait] w
                Hint eq_refl eq_refl eq_refl) as (w' & He & H & _)
  end.
  exists w'. split; [reflexivity |]. split; [exact He |].
  apply H. left. reflexivity.
Defined.

(** X12: the job that arrives is never the one that is dropped: right
    after its [Wait] was taken, it has been sent [nil], or [ErrClosed], or
    nothing yet; [ErrStackFull] and [ErrTimeout] only come to jobs that
    have waited on the stack. *)
Theorem arrival_answer (o : Options) (cs : list call) (w w' : system) :
  exec (start o) cs = Some w ->
  step w CallWait = Some w' ->
  values_on (made w) (sent w') = [] \/
  values_on (made w) (sent w') = [None] \/
  values_on (made w) (sent w') = [Some ErrClosed].
Proof.
  intros He Hstep. pose proof (inv_jobs_exec _ _ _ He) as Hj.
  destruct (jobs_fresh _ _ _ _ Hj) as [Hr Hqd]. destruct Hj as [_ _ _ Hv].
  assert (Hnone : values_on (made w) (sent w) = []).
  { apply length_zero_iff_nil. rewrite Hv, Hr. reflexivity. }
  destruct (step_loop_case _ _ _ Hstep) as [[_ ->] | [_ (s' & out & Hcase & ->)]].
  { left. exact Hnone. }
  cbn [taken sent]. rewrite values_on_app, Hnone. cbn [app event_of] in *.
  inversion Hcase as [j s1 o1 Hreq | | | | | | |]; subst.
  destruct Hreq as [ Hcl | Hcl Hlt | rest oldest Hcl Hge Hf El | Hcl Hge Hf ];
    cbn [values_on newJob notify]; rewrite ?Nat.eqb_refl; auto.
  assert (Hne : Nat.eqb (made w) (notify oldest) = false).
  { apply Nat.eqb_neq. intros E. apply mem_false in Hqd. apply Hqd.
    unfold queued. rewrite El, map_app, E. apply in_or_app. right. left. reflexivity. }
  rewrite Hne. auto.
Qed.

Lemma arrival_answer_witness :
  exists w w',
    exec (start (mkOptions 1 1 0 0)) [CallWait; CallWait] = Some w /\
    step w CallWait = Some w' /\
    values_on 2%nat (sent w') = [] /\ values_on 1%nat (sent w') = [Some ErrStackFull].
Proof.
  exists (mkSystem
            (mkQueue (mkOptions 1 1 0 0) (mkStack 1 [mkJob 1%nat false])
               false 1 false false)
            2 [Notify 0%nat None] [1; 0]%nat 0).
  exists (mkSystem
            (mkQueue (mkOptions 1 1 0 0) (mkStack 1 [mkJob 2%nat false])
               false 1 false false)
            3 [Notify 0%nat None; Notify 1%nat (Some ErrStackFull)] [2; 1; 0]%nat 0).
  split; [reflexivity |]. split; [reflexivity |]. split; [| reflexivity].
  match goal with |- values_on _ (sent ?w') = _ =>
    destruct (arrival_answer (mkOptions 1 1 0 0) [CallWait; CallWait]
      (mkSystem
            (mkQueue (mkOptions 1 1 0 0) (mkStack 1 [mkJob 1%nat false])
               false 1 false false)
            2 [Notify 0%nat None] [1; 0]%nat 0) w' eq_refl eq_refl)
      as [H | [H | H]]
  end; [exact H | discriminate H | discriminate H].
Defined.

(** ** [MoveTo] *)

Lemma moved_zero s n : moved 0 s n s n.
Proof.
  unfold moved. cbn [skipn firstn rev app Z.of_nat].
  repeat split; try reflexivity; lia.
Qed.

Lemma MoveTo_loop_spec rounds :
  forall s n,
    (moves s n <= rounds)%nat ->
    in_int (busy s) -> in_int (busy n) -> in_int (cap (stk n)) ->
    ((moves s n <= length (lst (stk s)))%nat ->
       exists s' n', MoveTo_loop rounds s n = Some (s', n') /\ moved (moves s n) s n s' n') /\
    ((length (lst (stk s)) < moves s n)%nat -> MoveTo_loop rounds s n = None).
Proof.
  induction rounds as [| rounds IH]; intros s n Hr Hs Hn Hc.
  - assert (Hk : moves s n = 0%nat) by lia.
    assert (Hcond : (busy s >? 0) && (busy n <? cap (stk n)) = false).
    { unfold moves in Hk. destruct (Z.gtb_spec (busy s) 0); [| reflexivity].
      destruct (Z.ltb_spec (busy n) (cap (stk n))); [lia | reflexivity]. }
    cbn [MoveTo_loop]. rewrite Hcond, Hk. split; [| lia].
    intros _. exists s, n. split; [reflexivity | apply moved_zero].
  - cbn [MoveTo_loop].
    destruct ((busy s >? 0) && (busy n <? cap (stk n))) eqn:Hcond.
    + apply andb_true_iff in Hcond. destruct Hcond as [Hb Hlt].
      apply Z.gtb_lt in Hb. apply Z.ltb_lt in Hlt.
      destruct (lst (stk s)) as [| j rest] eqn:El.
      * assert (Hp : pop (stk s) = None).
        { rewrite (stack_eta (stk s)), El. reflexivity. }
        rewrite Hp. split; [| reflexivity].
        unfold moves. cbn [length]. lia.
      * rewrite (pop_lst _ _ _ El).
        rewrite decr_above by (try exact Hs; unfold min_int; lia).
        rewrite (incr_below _ _ Hn Hc Hlt).
        set (s1 := set_stk (set_busy s (busy s - 1)) (mkStack (cap (stk s)) rest)).
        set (n1 := set_busy (set_stk n (push (stk n) j)) (busy n + 1)).
        assert (Hk : moves s n = S (moves s1 n1)).
        { unfold moves, s1, n1. cbn [set_stk set_busy busy stk cap push]. lia. }
        assert (Hs1 : in_int (busy s1)).
        { unfold s1. cbn [set_stk set_busy busy].
          unfold in_int, min_int, max_int in *. lia. }
        assert (Hn1 : in_int (busy n1)).
        { unfold n1. cbn [set_stk set_busy busy].
          unfold in_int, min_int, max_int in *. lia. }
        assert (Hr1 : (moves s1 n1 <= rounds)%nat) by lia.
        assert (Hl1 : lst (stk s1) = rest) by reflexivity.
        destruct (IH s1 n1 Hr1 Hs1 Hn1 Hc) as [Hok Hpanic].
        rewrite Hl1 in Hok, Hpanic.
        assert (Hfields :
          busy s1 = busy s - 1 /\ busy n1 = busy n + 1 /\
          lst (stk n1) = j :: lst (stk n) /\ cap (stk s1) = cap (stk s) /\
          cap (stk n1) = cap (stk n) /\ options s1 = options s /\
          options n1 = options n) by (repeat split; reflexivity).
        destruct Hfields as (F1 & F2 & F3 & F4 & F5 & F6 & F7).
        rewrite Hk. cbn [length].
        generalize dependent (moves s1 n1). intros k1 Hk Hr1 Hok Hpanic.
        clearbody s1 n1. split.
        -- intros Hlen. destruct Hok as (s' & n' & Hrun & Hm); [lia |].
           exists s', n'. split; [exact Hrun |].
           unfold moved in *. rewrite Hl1 in Hm.
           destruct Hm as (H1 & H2 & H3 & H4 & H5 & H6 & H7 & H8).
           rewrite El. cbn [skipn firstn rev].
           repeat split; try congruence; try lia.
           rewrite H4, F3, <- app_assoc. reflexivity.
        -- intros Hlen. apply Hpanic. lia.
    + assert (Hk : moves s n = 0%nat).
      { unfold moves. apply andb_false_iff in Hcond. destruct Hcond as [H | H].
        - destruct (Z.gtb_spec (busy s) 0); [discriminate | lia].
        - apply Z.ltb_ge in H. lia. }
      rewrite Hk. split; [| lia].
      intros _. exists s, n. split; [reflexivity | apply moved_zero].
Qed.

(** X13: for two different queues, [MoveTo] goes for
    [min (s.busy, newStack.cap - newStack.busy)] rounds (none when that is
    not positive).  When the source stack holds at least that many jobs, it
    returns having moved that many jobs from the top of the source stack
    onto the new stack, in reversed order, the source counter lowered and
    the new counter raised by that number, and nothing else changed.  When
    the source stack holds fewer jobs, it panics on the empty stack. *)
Theorem MoveTo_moves (s newStack : Stack) :
  in_int (busy s) -> in_int (busy newStack) -> in_int (cap (stk newStack)) ->
  ((moves s newStack <= length (lst (stk s)))%nat ->
     exists s' newStack',
       MoveTo s newStack = Some (s', newStack') /\
       moved (moves s newStack) s newStack s' newStack') /\
  ((length (lst (stk s)) < moves s newStack)%nat -> MoveTo s newStack = None).
Proof.
  intros Hs Hn Hc. unfold MoveTo. apply MoveTo_loop_spec; auto.
  unfold moves. lia.
Qed.

Lemma MoveTo_moves_witness :
  MoveTo
    (mkQueue (mkOptions 1 0 0 0) (mkStack 0 [mkJob 2%nat false; mkJob 1%nat false])
       false 3 false false)
    (mkQueue (mkOptions 1 2 0 0) (mkStack 2 []) false 0 false false)
  = Some
      (mkQueue (mkOptions 1 0 0 0) (mkStack 0 []) false 1 false false,
       mkQueue (mkOptions 1 2 0 0) (mkStack 2 [mkJob 1%nat false; mkJob 2%nat false])
         false 2 false false) /\
  MoveTo
    (mkQueue (mkOptions 1 0 0 0) (mkStack 0 [mkJob 2%nat false]) false 3 false false)
    (mkQueue (mkOptions 1 2 0 0) (mkStack 2 []) false 0 false false)
  = None.
Proof.
  split; [reflexivity |].
  apply (MoveTo_moves
    (mkQueue (mkOptions 1 0 0 0) (mkStack 0 [mkJob 2%nat false]) false 3 false false)
    (mkQueue (mkOptions 1 2 0 0) (mkStack 2 []) false 0 false false)).
  - apply in_int_small. cbn. lia.
  - apply in_int_small. cbn. lia.
  - apply in_int_small. cbn. lia.
  - cbn. lia.
Defined.

(** ** The loop of [jobqueue.go] *)

(** X14: the loop of [jobqueue.go] takes an arrival, a completion and
    the deadline of the oldest job exactly as the loop of the later
    version does on a queue that is not closing, and its quit case is the
    later forced close; its status reply shows the same two numbers. *)
Theorem earlier_loop_agrees (s : V1.Stack) (ev : V1.event) :
  later_result (V1.run s ev) = run (later s) (later_event ev) /\
  on_status (later s) =
    Some (later s,
          [Reply {| ActiveJobs := V1.Active (V1.status_reply s);
                    QueuedJobs := V1.Queued (V1.status_reply s);
                    Closing := false; Closed := false |}]).
Proof.
  split; [| reflexivity].
  destruct s as [o st b hq]. unfold V1.run, run, later.
  cbn [V1.hasQuit V1.options V1.stk V1.busy hasQuit].
  destruct hq; [reflexivity |].
  destruct ev as [j | | |]; cbn [later_event].
  - unfold on_req. cbn [closing busy options stk set_busy set_stk].
    destruct (b <? MaxConcurrency o); [reflexivity |].
    destruct (full st); [| reflexivity].
    destruct (shift st) as [[old st'] |]; reflexivity.
  - unfold on_done. cbn [set_busy stk busy closing].
    destruct (empty st) eqn:Ee; cbn [negb].
    + reflexivity.
    + destruct (pop st) as [[j st'] |]; reflexivity.
  - unfold on_timeout. cbn [stk set_stk].
    destruct (bottom st) as [old |]; [| reflexivity].
    destruct (timeout old); [| reflexivity].
    destruct (shift st) as [[x st'] |]; reflexivity.
  - unfold on_quit, rejectQueued. cbn [stk set_stk].
    destruct (rejectQueued_loop (length (lst st)) st) as [[st' out] |]; reflexivity.
Qed.

(** ** The handler on a queue that has ended *)

(** X15: when the queue of a handler has ended, the [Wait] of a request
    returns [ErrClosed], for which [ServeHTTP] has no case: the wrapped
    handler does not run and nothing is written to the response. *)
Theorem handler_after_quit (Request : Type) (h : Handler Request) (c : chan)
  (w : ResponseWriter) (r : Request) :
  hasQuit (h_stack h) = true ->
  exists res,
    Wait (h_stack h) c = Some res /\ ret res = Some (Some ErrClosed) /\
    ServeHTTP h (Some ErrClosed) w r = w.
Proof.
  intros Hq. unfold Wait. rewrite Hq. eexists. split; [reflexivity |].
  split; reflexivity.
Qed.

Lemma handler_after_quit_witness :
  ServeHTTP
    (mkHandler (mkHTTPOptions (mkOptions 1 0 0 0) 503 503)
       (fun w (_ : unit) => Write w [72])
       (mkQueue (mkOptions 1 0 0 0) (mkStack 0 []) true 0 true false))
    (Some ErrClosed) fresh_writer tt = fresh_writer.
Proof.
  destruct (handler_after_quit unit
    (mkHandler (mkHTTPOptions (mkOptions 1 0 0 0) 503 503)
       (fun w (_ : unit) => Write w [72])
       (mkQueue (mkOptions 1 0 0 0) (mkStack 0 []) true 0 true false))
    0%nat fresh_writer tt eq_refl) as (res & _ & _ & H).
  exact H.
Defined.

(** * Runs that may reconfigure *)

Lemma exec_r_invariant (Q : op -> Prop) (P : system -> Prop) :
  (forall w x w', Q x -> P w -> step_r w x = Some w' -> P w') ->
  forall ops w w', Forall Q ops -> P w -> exec_r w ops = Some w' -> P w'.
Proof.
  intros Hstep ops. induction ops as [| x ops IH]; intros w w' HQ HP He; simpl in He.
  - injection He as <-. exact HP.
  - inversion HQ; subst.
    destruct (step_r w x) as [w1 |] eqn:Es; [| discriminate]. eauto.
Qed.

Lemma exec_r_once_invariant (Q : op -> Prop) (P : system -> Prop) :
  (forall w x w', Q x -> P w -> once_r w x = true -> step_r w x = Some w' -> P w') ->
  forall ops w w', Forall Q ops -> P w -> exec_r_once w ops = Some w' -> P w'.
Proof.
  intros Hstep ops. induction ops as [| x ops IH]; intros w w' HQ HP He; simpl in He.
  - injection He as <-. exact HP.
  - inversion HQ; subst.
    destruct (once_r w x) eqn:Eo; [| discriminate].
    destruct (step_r w x) as [w1 |] eqn:Es; [| discriminate]. eauto.
Qed.

Lemma exec_r_once_plain ops :
  forallb plain ops = true ->
  exists cs, forall w, exec_r_once w ops = exec_once w cs.
Proof.
  induction ops as [| x ops IH]; intros Hp.
  - exists []. reflexivity.
  - cbn [forallb] in Hp. apply andb_true_iff in Hp. destruct Hp as [Hx Hp].
    destruct (IH Hp) as [cs Hcs]. destruct x as [c | o]; [| discriminate].
    exists (c :: cs). intros w. cbn [exec_r_once exec_once once_r step_r].
    destruct (once w c); [| reflexivity].
    destruct (step w c); [apply Hcs | reflexivity].
Qed.

Lemma loop_case_int s ev s' out :
  loop_case s ev s' out -> in_int (busy s) -> in_int (busy s').
Proof.
  intros Hcase Hi.
  destruct Hcase as [j s' out Hr | El | j rest El | rest oldest El Et | | | | Ec];
    try exact Hi.
  - destruct Hr; cbn [set_busy set_stk busy]; try exact Hi. apply wrap_in_int.
  - match goal with |- in_int (busy (finish ?x)) => destruct (busy_finish x) as [-> _] end.
    apply wrap_in_int.
  - match goal with |- in_int (busy (finish ?x)) => destruct (busy_finish x) as [-> _] end.
    apply wrap_in_int.
  - destruct (busy_graceful s) as [-> _]. exact Hi.
Qed.

Lemma loop_case_waiting s ev s' out :
  loop_case s ev s' out -> in_int (busy s) ->
  (lst (stk s) <> [] -> MaxConcurrency (options s) <= busy s) ->
  lst (stk s') <> [] -> MaxConcurrency (options s) <= busy s'.
Proof.
  intros Hcase Hi Hs.
  destruct Hcase as [j s' out Hr | El | j rest El | rest oldest El Et | | | | Ec];
    try exact Hs.
  - destruct Hr as [ Hcl | Hcl Hlt | rest oldest Hcl Hge Hf El | Hcl Hge Hf ];
      cbn [set_busy set_stk busy stk lst]; auto.
    intros Hne. specialize (Hs Hne). lia.
  - rewrite lst_finish. cbn [set_busy stk]. intros Hne. contradiction.
  - rewrite lst_finish.
    match goal with |- _ -> _ <= busy (finish ?x) => destruct (busy_finish x) as [-> _] end.
    cbn [set_stk set_busy busy stk lst]. intros _. rewrite incr_decr by exact Hi.
    apply Hs. rewrite El. discriminate.
  - cbn [set_stk busy stk lst]. intros _. apply Hs. rewrite El.
    destruct rest; discriminate.
  - cbn. intros Hne. contradiction.
  - rewrite lst_graceful. destruct (busy_graceful s) as [-> _]. exact Hs.
  - cbn. intros Hne. contradiction.
Qed.

Lemma inv_slot_step w c w' :
  inv_slot w -> once w c = true -> step w c = Some w' -> inv_slot w'.
Proof.
  intros [Hi Hmax Hpos Hs Hn Ht] Ho Hstep.
  destruct (step_cases _ _ _ Hstep) as [[_ ->] | [Hq (s' & out & Hr & ->)]].
  { split; cbn [untaken queue sent tokens]; auto. }
  destruct (run_frame _ _ _ _ Hr) as [Eo _].
  apply run_loop_case in Hr. destruct Hr as [_ Hcase].
  assert (Hdone : event_of w c = EvDone -> 0 < busy (queue w)).
  { intros E. destruct c; try discriminate E. cbn [once] in Ho.
    apply Nat.ltb_lt in Ho. lia. }
  pose proof (loop_case_count _ _ _ _ Hcase Hi Hmax Hdone) as Hcount.
  split; cbn [taken queue sent tokens]; rewrite ?granted_app, ?Eo; auto.
  - eapply loop_case_int; eauto.
  - eapply loop_case_waiting; eauto.
  - rewrite Hcount. destruct c; cbn [event_of]; lia.
  - destruct c; cbn [once] in Ho; try apply Nat.ltb_lt in Ho; lia.
Qed.

Lemma granted_let_in l : granted (let_in l) = length l.
Proof. induction l; simpl; auto. Qed.

(** What [Reconfigure] does when the loop takes it. *)
Lemma Reconfigure_running s o :
  hasQuit s = false -> in_int (busy s) -> opts_in_int o ->
  exists s',
    Reconfigure s o =
      Some (mkCalled true s'
              (let_in (firstn (slots (set_options s (normalize o))) (lst (stk s))) ++
               notify_all ErrStackFull
                 (rev (skipn
                         (length (kept (MaxStackSize o)
                                    (skipn (slots (set_options s (normalize o)))
                                       (lst (stk s)))))
                         (skipn (slots (set_options s (normalize o))) (lst (stk s))))))
              (Some None)) /\
    options s' = normalize o /\
    busy s' = busy s + Z.of_nat (slots (set_options s (normalize o))) /\
    lst (stk s') =
      kept (MaxStackSize o) (skipn (slots (set_options s (normalize o))) (lst (stk s))).
Proof.
  intros Hq Hi Hint. destruct (normalize_rest o) as (Ecap & _ & _).
  unfold Reconfigure, promote, trim. rewrite Hq.
  rewrite promote_loop_spec; cbn [set_options stk lst busy options cap].
  - cbn [set_stk set_busy stk lst cap]. rewrite trim_loop_spec by lia. rewrite Ecap.
    eexists. split; [reflexivity |]. cbn. repeat split.
  - lia.
  - exact Hi.
  - apply normalize_in_int. exact Hint.
Qed.

Lemma kept_nil c : kept c [] = [].
Proof. unfold kept. destruct (c >? 0); [apply firstn_nil | reflexivity]. Qed.

Lemma inv_slot_reconfigure w o w' :
  opts_in_int o -> inv_slot w -> step_r w (OpReconfigure o) = Some w' -> inv_slot w'.
Proof.
  intros Hint [Hi Hmax Hpos Hs Hn Ht] Hstep. cbn [step_r] in Hstep.
  destruct (hasQuit (queue w)) eqn:Hq.
  - unfold Reconfigure in Hstep. rewrite Hq in Hstep. cbn in Hstep.
    injection Hstep as <-. split; cbn [queue sent tokens]; rewrite ?app_nil_r; auto.
  - destruct (Reconfigure_running _ o Hq Hi Hint) as (s' & Hr & Ho & Hb & Hl).
    rewrite Hr in Hstep. cbn [by_call after outs] in Hstep. injection Hstep as <-.
    pose proof (normalize_in_int _ Hint) as [Hmax' _].
    pose proof (normalize_pos o) as Hpos'.
    set (k := slots (set_options (queue w) (normalize o))) in *.
    assert (Hk : Z.of_nat k =
                 Z.min (Len (stk (queue w)))
                       (Z.max 0 (MaxConcurrency (normalize o) - busy (queue w)))).
    { unfold k, slots, Len. cbn [set_options stk lst busy options]. lia. }
    assert (Hklen : (k <= length (lst (stk (queue w))))%nat).
    { unfold Len in Hk. lia. }
    split; cbn [queue sent tokens]; rewrite ?Ho, ?Hb, ?Hl; auto.
    + unfold in_int, min_int, max_int in *. lia.
    + intros Hne.
      assert (Hlt : (k < length (lst (stk (queue w))))%nat).
      { destruct (Nat.lt_ge_cases k (length (lst (stk (queue w))))) as [? | Hge]; [auto |].
        rewrite (skipn_all2 _ Hge), kept_nil in Hne. contradiction. }
      unfold Len in Hk. lia.
    + rewrite !granted_app, granted_let_in, granted_notify_all, length_firstn. lia.
    + rewrite !granted_app, granted_let_in, granted_notify_all, length_firstn. lia.
Qed.

Lemma inv_slot_start o : opts_in_int o -> inv_slot (start o).
Proof.
  intros Hint. pose proof (normalize_in_int _ Hint) as [Hmax _].
  pose proof (normalize_pos o) as Hpos.
  split; cbn [start queue sent tokens granted]; rewrite ?With_options; auto;
    unfold With; cbn; try lia; try contradiction.
  apply in_int_small. lia.
Qed.

Lemma inv_slot_exec o ops w :
  opts_in_int o -> Forall (given opts_in_int) ops ->
  exec_r_once (start o) ops = Some w -> inv_slot w.
Proof.
  intros Hint Hops He.
  eapply (exec_r_once_invariant (given opts_in_int) inv_slot);
    [| exact Hops | apply inv_slot_start; exact Hint | exact He].
  intros w0 x w1 Hx Hinv Ho Hs. destruct x as [c | o'].
  - eapply inv_slot_step; eauto.
  - eapply inv_slot_reconfigure; eauto.
Qed.

(** C9, as it holds: with every done function called at most once, in
    every state the system reaches, also through [Reconfigure], the counter
    is not negative and is at least [MaxConcurrency] whenever a job waits on
    the stack: no slot is left free while a job waits.  In runs without
    [Reconfigure] the counter never exceeds [MaxConcurrency], so it equals
    it whenever a job waits. *)
Theorem slot_never_idle (o : Options) (ops : list op) (w : system) :
  opts_in_int o -> Forall (given opts_in_int) ops ->
  exec_r_once (start o) ops = Some w ->
  0 <= busy (queue w) /\
  (lst (stk (queue w)) <> [] -> MaxConcurrency (options (queue w)) <= busy (queue w)) /\
  (forallb plain ops = true ->
     busy (queue w) <= MaxConcurrency (options (queue w)) /\
     (lst (stk (queue w)) <> [] -> busy (queue w) = MaxConcurrency (options (queue w)))).
Proof.
  intros Hint Hops He.
  pose proof (inv_slot_exec _ _ _ Hint Hops He) as [_ _ _ Hs Hn Ht].
  split; [lia |]. split; [exact Hs |].
  intros Hp. destruct (exec_r_once_plain _ Hp) as [cs Hcs]. rewrite Hcs in He.
  pose proof (inv_once_exec _ _ _ Hint He) as [_ _ Hm].
  split; [exact Hm |]. intros Hne. specialize (Hs Hne). lia.
Qed.

Lemma slot_never_idle_witness :
  exists w,
    exec_r_once (start (mkOptions 1 0 0 0))
      [Op CallWait; Op CallWait; Op CallWait; OpReconfigure (mkOptions 2 0 0 0)] = Some w /\
    queued w = [1%nat] /\ busy (queue w) = 2 /\
    MaxConcurrency (options (queue w)) <= busy (queue w).
Proof.
  exists (mkSystem
            (mkQueue (mkOptions 2 0 0 0) (mkStack 0 [mkJob 1%nat false])
               false 2 false false)
            3 [Notify 0%nat None; Notify 2%nat None] [2; 1; 0]%nat 0).
  assert (Hint : forall a b, -1000 <= a <= 1000 -> -1000 <= b <= 1000 ->
                             opts_in_int (mkOptions a b 0 0)).
  { intros a b Ha Hb. split; apply in_int_small; cbn; lia. }
  split; [reflexivity |]. split; [reflexivity |]. split; [reflexivity |].
  match goal with |- _ <= busy (queue ?w) =>
    refine (proj1 (proj2 (slot_never_idle (mkOptions 1 0 0 0)
      [Op CallWait; Op CallWait; Op CallWait; OpReconfigure (mkOptions 2 0 0 0)] w
      (Hint 1 0 ltac:(lia) ltac:(lia)) _ eq_refl)) _)
  end.
  - do 3 (apply Forall_cons; [exact I |]).
    apply Forall_cons; [apply Hint; lia | apply Forall_nil].
  - discriminate.
Defined.

(** C9, as stated, fails after a [Reconfigure] that lowers
    [MaxConcurrency]: from two active and two waiting jobs under a
    concurrency of 2, reconfiguring to a concurrency of 1 leaves two jobs
    active and two waiting, which is the status that the row "decrease
    concurrency, keep stack size" of [TestReconfigure] expects. *)
Lemma reconfigure_lowers_ceiling :
  exists w,
    exec_r_once (start (mkOptions 2 2 0 0))
      [Op CallWait; Op CallWait; Op CallWait; Op CallWait;
       OpReconfigure (mkOptions 1 2 0 0)] = Some w /\
    lst (stk (queue w)) <> [] /\
    busy (queue w) = 2 /\ MaxConcurrency (options (queue w)) = 1 /\
    busy (queue w) <> MaxConcurrency (options (queue w)) /\
    status_of (queue w) = Some (mkStatus 2 2 false false) /\
    In (mkOptions 1 2 0 0, mkStatus 2 2 false false) TestReconfigure_cases /\
    passes Reconfigure (mkOptions 1 2 0 0, mkStatus 2 2 false false) = true.
Proof.
  exists (mkSystem
            (mkQueue (mkOptions 1 2 0 0)
               (mkStack 2 [mkJob 3%nat false; mkJob 2%nat false]) false 2 false false)
            4 [Notify 0%nat None; Notify 1%nat None] [3; 2; 1; 0]%nat 0).
  split; [reflexivity |]. split; [discriminate |]. split; [reflexivity |].
  split; [reflexivity |]. split; [discriminate |]. split; [reflexivity |].
  split; [cbn; tauto | reflexivity].
Qed.

(** ** What a reconfiguration can and cannot change *)

Lemma pop_some st j st' :
  pop st = Some (j, st') -> lst st = j :: lst st' /\ cap st' = cap st.
Proof.
  destruct st as [c [| x l]]; cbn; [discriminate |].
  intros H. injection H as <- <-. auto.
Qed.

Lemma promote_loop_shape n :
  forall s s' out,
    promote_loop n s = Some (s', out) ->
    exists k,
      out = let_in (firstn k (lst (stk s))) /\
      lst (stk s') = skipn k (lst (stk s)) /\
      cap (stk s') = cap (stk s) /\ options s' = options s /\
      closing s' = closing s /\ hasQuit s' = hasQuit s /\
      closeTimeout s' = closeTimeout s.
Proof.
  induction n as [| n IH]; intros s s' out H; cbn [promote_loop] in H;
    destruct ((busy s <? MaxConcurrency (options s)) && negb (empty (stk s)));
    try discriminate;
    try (injection H as <- <-; exists 0%nat; repeat split; reflexivity).
  destruct (pop (stk s)) as [[j st'] |] eqn:Ep; [| discriminate].
  destruct (promote_loop n _) as [[s1 out1] |] eqn:Er; [| discriminate].
  injection H as <- <-. destruct (pop_some _ _ _ Ep) as [El Ec].
  destruct (IH _ _ _ Er) as (k & Ho & Hl & Hc & Hop & Hcl & Hq & Ht).
  cbn [set_stk set_busy stk options closing hasQuit closeTimeout] in *.
  exists (S k). rewrite El. cbn [firstn skipn let_in map].
  repeat split; try congruence. rewrite Ho. reflexivity.
Qed.

(** What [Reconfigure] does when the loop takes it, whatever the
    counter is. *)
Lemma Reconfigure_shape s o r :
  Reconfigure s o = Some r -> hasQuit s = false ->
  exists k,
    outs r =
      let_in (firstn k (lst (stk s))) ++
      notify_all ErrStackFull
        (rev (skipn (length (kept (MaxStackSize o) (skipn k (lst (stk s)))))
                (skipn k (lst (stk s))))) /\
    lst (stk (after r)) = kept (MaxStackSize o) (skipn k (lst (stk s))) /\
    cap (stk (after r)) = MaxStackSize o /\ options (after r) = normalize o /\
    closing (after r) = closing s /\ hasQuit (after r) = false /\
    closeTimeout (after r) = closeTimeout s.
Proof.
  intros H Hq. destruct (normalize_rest o) as (Ecap & _ & _).
  unfold Reconfigure, promote, trim in H. rewrite Hq in H.
  destruct (promote_loop _ _) as [[s2 out1] |] eqn:Ep; [| discriminate].
  destruct (promote_loop_shape _ _ _ _ Ep) as (k & Ho & Hl & Hc & Hop & Hcl & Hq2 & Ht).
  cbn [set_options stk lst cap options closing hasQuit closeTimeout] in *.
  destruct (stk s2) as [c2 l2] eqn:E2. cbn [lst cap] in *. subst c2 l2.
  rewrite trim_loop_spec in H by lia.
  injection H as <-. exists k. cbn [outs after set_stk stk lst cap options closing
    hasQuit closeTimeout]. rewrite Ecap in *. rewrite Ho.
  repeat split; try congruence.
Qed.

Lemma step_r_reconfigure w o w' :
  step_r w (OpReconfigure o) = Some w' ->
  (hasQuit (queue w) = true /\ queue w' = queue w /\ sent w' = sent w) \/
  (hasQuit (queue w) = false /\
   exists r, Reconfigure (queue w) o = Some r /\ queue w' = after r /\
             sent w' = sent w ++ outs r).
Proof.
  cbn [step_r]. destruct (hasQuit (queue w)) eqn:Hq.
  - unfold Reconfigure. rewrite Hq. cbn. intros H. injection H as <-.
    left. cbn. rewrite app_nil_r. auto.
  - destruct (Reconfigure (queue w) o) as [r |] eqn:Er; [| discriminate].
    cbn. intros H. injection H as <-. right. split; [reflexivity |]. eauto.
Qed.

Lemma exec_r_plain ops :
  forallb plain ops = true ->
  exists cs, forall w, exec_r w ops = exec w cs.
Proof.
  induction ops as [| x ops IH]; intros Hp.
  - exists []. reflexivity.
  - cbn [forallb] in Hp. apply andb_true_iff in Hp. destruct Hp as [Hx Hp].
    destruct (IH Hp) as [cs Hcs]. destruct x as [c | o]; [| discriminate].
    exists (c :: cs). intros w. cbn [exec_r exec step_r].
    destruct (step w c); [apply Hcs | reflexivity].
Qed.

Lemma sends_let_in e l : sends e (let_in l) = false.
Proof. induction l; simpl; auto. Qed.

(** X3: in every state the system reaches, also through [Reconfigure],
    [MaxConcurrency] is at least 1 and the capacity of the stack is the
    current [MaxStackSize].  [Wait], the done functions, [Status], [Close],
    [CloseForced] and the two timers never change the options or the
    capacity; a [Reconfigure] taken by the running loop sets them to its
    argument, with a [MaxConcurrency] of zero or less replaced by 1, and
    one called after the loop has ended changes nothing.  Without
    [Reconfigure] the options are those given to [With], normalized. *)
Theorem options_follow_configuration (o : Options) (ops : list op) (w : system) :
  exec_r (start o) ops = Some w ->
  1 <= MaxConcurrency (options (queue w)) /\
  cap (stk (queue w)) = MaxStackSize (options (queue w)) /\
  (forall c w', step w c = Some w' ->
     options (queue w') = options (queue w) /\
     cap (stk (queue w')) = cap (stk (queue w))) /\
  (forall o' w', step_r w (OpReconfigure o') = Some w' ->
     if hasQuit (queue w) then queue w' = queue w
     else options (queue w') = normalize o' /\
          cap (stk (queue w')) = MaxStackSize o') /\
  (forallb plain ops = true -> options (queue w) = normalize o).
Proof.
  intros He.
  assert (Hframe : forall w c w', step w c = Some w' ->
            options (queue w') = options (queue w) /\
            cap (stk (queue w')) = cap (stk (queue w))).
  { intros w0 c w1 Hs.
    destruct (step_cases _ _ _ Hs) as [[_ ->] | [_ (s' & out & Hr & ->)]]; [auto |].
    apply (run_frame _ _ _ _ Hr). }
  assert (Hrec : forall w o' w', step_r w (OpReconfigure o') = Some w' ->
     if hasQuit (queue w) then queue w' = queue w
     else options (queue w') = normalize o' /\
          cap (stk (queue w')) = MaxStackSize o').
  { intros w0 o' w1 Hs.
    destruct (step_r_reconfigure _ _ _ Hs) as [(Hq & E & _) | (Hq & r & Hr & E & _)];
      rewrite Hq; [exact E |].
    destruct (Reconfigure_shape _ _ _ Hr Hq) as (k & _ & _ & Hc & Ho & _).
    rewrite E. auto. }
  assert (Hinv : 1 <= MaxConcurrency (options (queue w)) /\
                 cap (stk (queue w)) = MaxStackSize (options (queue w))).
  { revert He.
    apply (exec_r_invariant (fun _ => True)
             (fun w => 1 <= MaxConcurrency (options (queue w)) /\
                       cap (stk (queue w)) = MaxStackSize (options (queue w)))).
    - intros w0 x w1 _ [H1 H2] Hs. destruct x as [c | o'].
      + destruct (Hframe _ _ _ Hs) as [Eo Ec]. rewrite Eo, Ec. auto.
      + specialize (Hrec _ _ _ Hs). destruct (hasQuit (queue w0)).
        * rewrite Hrec. auto.
        * destruct Hrec as [Eo Ec]. rewrite Eo, Ec. split; [apply normalize_pos |].
          symmetry. apply normalize_rest.
    - apply Forall_forall. auto.
    - cbn [start queue]. rewrite With_options. split; [apply normalize_pos |].
      unfold With, normalize. destruct (MaxConcurrency o <=? 0); reflexivity. }
  assert (C : forallb plain ops = true -> options (queue w) = normalize o).
  { intros Hp. destruct (exec_r_plain _ Hp) as [cs Hcs]. rewrite Hcs in He.
    apply (inv_frame_exec _ _ _ He). }
  destruct Hinv as (A & B).
  split; [exact A |]. split; [exact B |]. split; [exact (Hframe w) |].
  split; [exact (Hrec w) | exact C].
Qed.

Lemma options_follow_configuration_witness :
  exists w,
    exec_r (start (mkOptions 0 3 0 0)) [Op CallWait; OpReconfigure (mkOptions 0 5 0 0)]
      = Some w /\
    MaxConcurrency (options (queue w)) = 1 /\ cap (stk (queue w)) = 5.
Proof.
  exists (mkSystem
            (mkQueue (mkOptions 1 5 0 0) (mkStack 5 []) false 1 false false)
            1 [Notify 0%nat None] [0]%nat 0).
  split; [reflexivity |]. split; [reflexivity |].
  match goal with |- cap (stk (queue ?w)) = _ =>
    destruct (options_follow_configuration (mkOptions 0 3 0 0)
                [Op CallWait; OpReconfigure (mkOptions 0 5 0 0)] w eq_refl)
      as (_ & H & _)
  end.
  rewrite H. reflexivity.
Defined.

(** X5: as long as the queue has only been configured, by [With] and by
    every [Reconfigure], with a [MaxStackSize] of zero or less, its stack is
    never full and no job is ever sent [ErrStackFull]. *)
Theorem unbounded_while_configured (o : Options) (ops : list op) (w : system) :
  MaxStackSize o <= 0 ->
  Forall (given (fun o' => MaxStackSize o' <= 0)) ops ->
  exec_r (start o) ops = Some w ->
  full (stk (queue w)) = false /\ sends ErrStackFull (sent w) = false.
Proof.
  intros Hcap Hops He.
  assert (Hfull : forall w, cap (stk (queue w)) <= 0 -> full (stk (queue w)) = false).
  { intros w0 Hc. unfold full. destruct (Z.gtb_spec (cap (stk (queue w0))) 0);
      [lia | reflexivity]. }
  assert (H : cap (stk (queue w)) <= 0 /\ sends ErrStackFull (sent w) = false).
  { revert He.
    apply (exec_r_invariant (given (fun o' => MaxStackSize o' <= 0))
             (fun w => cap (stk (queue w)) <= 0 /\ sends ErrStackFull (sent w) = false));
      [| exact Hops |].
    - intros w0 x w1 Hx [Hc Hs] Hstep. destruct x as [c | o'].
      + cbn [step_r] in Hstep.
        destruct (step_cases _ _ _ Hstep) as [[_ ->] | [_ (s' & out & Hr & ->)]];
          [auto |].
        destruct (run_frame _ _ _ _ Hr) as [_ Ec]. cbn [taken queue sent].
        rewrite Ec. split; [exact Hc |].
        apply run_loop_case in Hr. destruct Hr as [_ Hcase].
        rewrite sends_app, Hs. cbn [orb].
        destruct (sends ErrStackFull out) eqn:Eo; [| reflexivity].
        destruct (loop_case_sends _ _ _ _ _ Hcase Eo) as [[_ F] | [[E _] | [E _]]];
          try discriminate.
        rewrite (Hfull _ Hc) in F. discriminate.
      + cbn [given] in Hx.
        destruct (step_r_reconfigure _ _ _ Hstep)
          as [(Hq & E & Es) | (Hq & r & Hr & E & Es)].
        * rewrite E, Es. auto.
        * destruct (Reconfigure_shape _ _ _ Hr Hq) as (k & Ho & _ & Hcp & _).
          rewrite E, Es, Hcp. split; [exact Hx |].
          rewrite sends_app, Hs, Ho, sends_app, sends_let_in. cbn [orb].
          assert (Hk : forall l, kept (MaxStackSize o') l = l).
          { intros l. unfold kept. destruct (Z.gtb_spec (MaxStackSize o') 0);
              [lia | reflexivity]. }
          rewrite Hk, skipn_all. reflexivity.
    - cbn [start queue sent]. split; [| reflexivity].
      unfold With. cbn. destruct (MaxConcurrency o <=? 0); cbn; exact Hcap. }
  destruct H as [Hc Hs]. split; [apply Hfull; exact Hc | exact Hs].
Qed.

Lemma unbounded_while_configured_witness :
  exists w,
    exec_r (start (mkOptions 1 0 0 0))
      [Op CallWait; Op CallWait; Op CallWait; OpReconfigure (mkOptions 1 (-1) 0 0)]
      = Some w /\
    queued w = [2; 1]%nat /\ sends ErrStackFull (sent w) = false.
Proof.
  exists (mkSystem
            (mkQueue (mkOptions 1 (-1) 0 0)
               (mkStack (-1) [mkJob 2%nat false; mkJob 1%nat false]) false 1 false false)
            3 [Notify 0%nat None] [2; 1; 0]%nat 0).
  split; [reflexivity |]. split; [reflexivity |].
  match goal with |- sends _ (sent ?w) = _ =>
    apply (unbounded_while_configured (mkOptions 1 0 0 0)
      [Op CallWait; Op CallWait; Op CallWait; OpReconfigure (mkOptions 1 (-1) 0 0)] w)
  end.
  - cbn. lia.
  - do 3 (apply Forall_cons; [exact I |]).
    apply Forall_cons; [cbn; lia | apply Forall_nil].
  - reflexivity.
Defined.

Lemma Forall_skipn {A : Type} (P : A -> Prop) k (l : list A) :
  Forall P l -> Forall P (skipn k l).
Proof.
  revert l. induction k as [| k IH]; intros l H; [exact H |].
  destruct l as [| x l]; [constructor |]. inversion H; subst. cbn. auto.
Qed.

Lemma Forall_firstn {A : Type} (P : A -> Prop) k (l : list A) :
  Forall P l -> Forall P (firstn k l).
Proof.
  revert l. induction k as [| k IH]; intros l H; [constructor |].
  destruct l as [| x l]; [constructor |]. inversion H; subst. cbn. auto.
Qed.

Lemma Forall_kept (P : job -> Prop) c l : Forall P l -> Forall P (kept c l).
Proof. unfold kept. destruct (c >? 0); auto using Forall_firstn. Qed.

Lemma timers_step_current b w c w' :
  (Timeout (options (queue w)) >? 0) = b ->
  Forall (fun j => timeout j = b) (lst (stk (queue w))) ->
  step w c = Some w' ->
  Forall (fun j => timeout j = b) (lst (stk (queue w'))).
Proof.
  intros Hb H Hstep.
  destruct (step_loop_case _ _ _ Hstep) as [[_ ->] | [Hq (s' & out & Hcase & ->)]];
    [exact H |].
  clear Hstep. remember (event_of w c) as ev eqn:Eev.
  assert (Hnew : forall j, ev = EvReq j -> timeout j = b).
  { intros j E. rewrite E in Eev. destruct c; try discriminate Eev.
    cbn [event_of] in Eev. injection Eev as ->. cbn [newJob timeout]. exact Hb. }
  destruct Hcase as [j s' out Hr | El | j rest El | rest oldest El Et | | | | Ec];
    cbn [taken queue]; rewrite ?lst_finish, ?lst_graceful;
    cbn [set_busy set_stk stk lst rejected fst close_hasQuit]; auto.
  - specialize (Hnew j eq_refl).
    destruct Hr as [ Hcl | Hcl Hlt | rest oldest Hcl Hge Hf El | Hcl Hge Hf ];
      cbn [set_busy set_stk stk lst]; auto.
    rewrite El in H. apply Forall_app in H. destruct H as [H _]. auto.
  - rewrite El in H. inversion H; auto.
  - rewrite El in H. apply Forall_app in H. tauto.
Qed.

(** X6: a job gets a timer exactly when [Timeout > 0] in the options
    that are current at its [Wait].  So as long as the queue has only been
    configured, by [With] and by every [Reconfigure], with a [Timeout] of
    zero or less, no waiting job has a timer, the deadline case of the loop
    can never be taken and no job is ever sent [ErrTimeout]; and as long as
    it has only been configured with [Timeout > 0], every waiting job has a
    timer and the case can be taken whenever the loop runs and a job
    waits. *)
Theorem deadlines_follow_configuration (b : bool) (o : Options) (ops : list op)
  (w : system) :
  (Timeout o >? 0) = b ->
  Forall (given (fun o' => (Timeout o' >? 0) = b)) ops ->
  exec_r (start o) ops = Some w ->
  (forall c, timeout (newJob (queue w) c) = b) /\
  Forall (fun j => timeout j = b) (lst (stk (queue w))) /\
  (b = false -> step w FireTimeout = None /\ sends ErrTimeout (sent w) = false) /\
  (b = true -> hasQuit (queue w) = false -> lst (stk (queue w)) <> [] ->
     exists w', step w FireTimeout = Some w').
Proof.
  intros Hb Hops He.
  assert (H : (Timeout (options (queue w)) >? 0) = b /\
              Forall (fun j => timeout j = b) (lst (stk (queue w))) /\
              (b = false -> sends ErrTimeout (sent w) = false)).
  { revert He.
    apply (exec_r_invariant (given (fun o' => (Timeout o' >? 0) = b))
             (fun w => (Timeout (options (queue w)) >? 0) = b /\
                       Forall (fun j => timeout j = b) (lst (stk (queue w))) /\
                       (b = false -> sends ErrTimeout (sent w) = false)));
      [| exact Hops |].
    - intros w0 x w1 Hx (Ho & Ht & Hs) Hstep. destruct x as [c | o'].
      + cbn [step_r] in Hstep.
        split; [| split; [eapply timers_step_current; eauto |]].
        * destruct (step_cases _ _ _ Hstep) as [[_ ->] | [_ (s' & out & Hr & ->)]];
            [exact Ho |].
          destruct (run_frame _ _ _ _ Hr) as [Eo _]. cbn [taken queue]. rewrite Eo.
          exact Ho.
        * intros Hf. specialize (Hs Hf).
          destruct (step_loop_case _ _ _ Hstep) as [[_ ->] | [_ (s' & out & Hcase & ->)]];
            [exact Hs |].
          cbn [taken sent]. rewrite sends_app, Hs. cbn [orb].
          destruct (sends ErrTimeout out) eqn:Eo; [| reflexivity].
          destruct (loop_case_sends _ _ _ _ _ Hcase Eo)
            as [[E _] | [[_ (rest & oldest & _ & El & Et)] | [E _]]]; try discriminate.
          rewrite El in Ht. apply Forall_app in Ht. destruct Ht as [_ Ht].
          inversion Ht as [| ? ? Hx' _]; subst. congruence.
      + cbn [given] in Hx.
        destruct (step_r_reconfigure _ _ _ Hstep)
          as [(Hq & E & Es) | (Hq & r & Hr & E & Es)].
        * rewrite E, Es. auto.
        * destruct (Reconfigure_shape _ _ _ Hr Hq) as (k & Hout & Hl & _ & Hop & _).
          rewrite E, Es, Hl, Hop. destruct (normalize_rest o') as (_ & -> & _).
          split; [exact Hx |]. split; [apply Forall_kept, Forall_skipn; exact Ht |].
          intros Hf. rewrite sends_app, (Hs Hf), Hout, sends_app, sends_let_in.
          cbn [orb].
          destruct (sends ErrTimeout (notify_all ErrStackFull _)) eqn:En; [| reflexivity].
          apply sends_notify_all in En. discriminate.
    - cbn [start queue sent]. rewrite With_options.
      destruct (normalize_rest o) as (_ & -> & _). split; [exact Hb |].
      split; [| reflexivity]. unfold With. cbn.
      destruct (MaxConcurrency o <=? 0); constructor. }
  destruct H as (Ho & Ht & Hs).
  split; [intros c; exact Ho |]. split; [exact Ht |]. split.
  - intros Hf. split; [| auto].
    destruct (step w FireTimeout) as [w' |] eqn:Hstep; [| reflexivity]. exfalso.
    destruct (step_loop_case _ _ _ Hstep) as [[Hq _] | [_ (s' & out & Hcase & _)]].
    + rewrite step_quit in Hstep by exact Hq. discriminate.
    + cbn [event_of] in Hcase. inversion Hcase as [ | | | rest oldest El Et | | | | ]; subst.
      rewrite El in Ht. apply Forall_app in Ht. destruct Ht as [_ Ht].
      inversion Ht as [| ? ? Hx _]; subst. congruence.
  - intros Htrue Hq Hne.
    destruct (snoc_cases (lst (stk (queue w)))) as [E | (rest & oldest & El)];
      [contradiction |].
    rewrite step_running by exact Hq. cbn [event_of]. unfold run. rewrite Hq.
    rewrite El in Ht. apply Forall_app in Ht. destruct Ht as [_ Ht].
    inversion Ht as [| ? ? Hx _]; subst. rewrite Htrue in Hx.
    rewrite (on_timeout_ready _ _ _ El Hx). eauto.
Qed.

Lemma deadlines_follow_configuration_witness :
  exists w,
    exec_r (start (mkOptions 1 0 0 0))
      [Op CallWait; Op CallWait; OpReconfigure (mkOptions 1 0 (-4) 0); Op CallWait]
      = Some w /\
    queued w = [2; 1]%nat /\ step w FireTimeout = None.
Proof.
  exists (mkSystem
            (mkQueue (mkOptions 1 0 (-4) 0)
               (mkStack 0 [mkJob 2%nat false; mkJob 1%nat false]) false 1 false false)
            3 [Notify 0%nat None] [2; 1; 0]%nat 0).
  split; [reflexivity |]. split; [reflexivity |].
  match goal with |- step ?w _ = _ =>
    destruct (deadlines_follow_configuration false (mkOptions 1 0 0 0)
      [Op CallWait; Op CallWait; OpReconfigure (mkOptions 1 0 (-4) 0); Op CallWait] w)
      as (_ & _ & H & _)
  end.
  - reflexivity.
  - do 2 (apply Forall_cons; [exact I |]).
    apply Forall_cons; [reflexivity |]. apply Forall_cons; [exact I | apply Forall_nil].
  - reflexivity.
  - apply H. reflexivity.
Defined.

(** ** [Close] called again *)


